(** * The MSON base component: property store, events, listener wiring

    A shallow embedding of [src/mson/component/component.js].  The class
    [Component] extends Node's [EventEmitter]; its properties live directly
    on the instance under the name ['_' + name].  The embedding keeps

    - the instance's own fields as a finite map from JavaScript property
      names to values, and the members a read of ['_' + name] can find on
      the prototype chain,
    - the arrays the class allocates in [_push] in a small heap, because
      [_set] compares with [!==] and arrays compare by reference,
    - the emitter's subscriptions as the list of (event, handler) pairs in
      subscription order,
    - the suspended [async] listener chains in a pool,
    - every [emit] call and every [action.run] call in a trace, and
    - whether the two arrows the instance holds are bound to it, which
      they are unless the instance is a copy made by [clone].  *)

From Stdlib Require Import ZArith List Lia Bool Ascii String.
From stdpp Require Import base option list gmap strings.

Local Open Scope string_scope.
Local Open Scope list_scope.

(** ** JavaScript values *)

(** Numbers are kept to integers; [NaN] and the other floating-point values
    are outside this development. *)
Inductive value : Type :=
  | VUndef
  | VNull
  | VBool (b : bool)
  | VNum (n : Z)
  | VStr (s : string)
  | VObj (r : nat)     (* an object owned by the caller: identity only *)
  | VArr (r : nat)     (* an array allocated by the component, see [heap] *)
  | VFun (f : string)  (* a function, named by the member that holds it *)
  | VBaseSchema        (* the literal built by [_getComponentMSONSchema] *)
  | VInternal (s : string).
                       (* an object of the runtime: the emitter's listener
                          table, the prototype of the instance *)

(** [a === b].  Primitives compare by value, references by identity. *)
Definition strict_eq (a b : value) : bool :=
  match a, b with
  | VUndef, VUndef => true
  | VNull, VNull => true
  | VBool x, VBool y => Bool.eqb x y
  | VNum x, VNum y => Z.eqb x y
  | VStr x, VStr y => String.eqb x y
  | VObj x, VObj y => Nat.eqb x y
  | VArr x, VArr y => Nat.eqb x y
  | VFun x, VFun y => String.eqb x y
  | VBaseSchema, VBaseSchema => true
  | VInternal x, VInternal y => String.eqb x y
  | _, _ => false
  end.

Definition is_undefined (a : value) : bool :=
  match a with VUndef => true | _ => false end.

Definition is_null (a : value) : bool :=
  match a with VNull => true | _ => false end.

(** ** Actions, listeners, handlers *)

(** The settlement of the promise returned by [action.run]. *)
Inductive outcome : Type :=
  | Resolved (v : value)
  | Rejected (err : value).

(** An injected action.  [act_run event ifData arguments] is the settlement
    of [action.run({event, component, ifData, arguments})]; an action is an
    external capability, its own side effects are not part of the
    component. *)
Record action : Type := Action {
  act_id : nat;
  act_run : string -> value -> value -> outcome
}.

(** A declared listener [{event, actions}]. *)
Record listener : Type := Listener {
  l_event : string;
  l_actions : list action
}.

(** The functions the class subscribes: the two bound arrows
    [_emitCreatedFactory] and [_emitLoadedFactory], and the [async] closure
    built for each declared listener, which captures the listener and
    [ifData]. *)
Inductive handler : Type :=
  | HEmitCreated
  | HEmitLoaded
  | HChain (l : listener) (ifData : value).

Definition is_created_factory (h : handler) : bool :=
  match h with HEmitCreated => true | _ => false end.

Definition is_loaded_factory (h : handler) : bool :=
  match h with HEmitLoaded => true | _ => false end.

(** The function a handler is, as a value: the closures are anonymous. *)
Definition handler_value (h : handler) : value :=
  match h with
  | HEmitCreated => VFun "_emitCreatedFactory"
  | HEmitLoaded => VFun "_emitLoadedFactory"
  | HChain _ _ => VFun ""
  end.

(** A listener chain suspended at an [await]: the actions still to run and
    the settlement it is waiting for. *)
Record task : Type := Task {
  t_listener : listener;
  t_ifData : value;
  t_rest : list action;
  t_pending : outcome
}.

(** What an observer of the component can see. *)
Inductive entry : Type :=
  | Emitted (event : string) (args : list value)
  | Ran (id : nat) (event : string) (ifData : value) (arguments : value).

(** ** The component *)

(** [own_arrows] tells whether the arrows held in [_emitCreatedFactory]
    and [_emitLoadedFactory] are bound to this instance.  The emitter's own
    fields [_events] and [_eventsCount] are not entries of [fields]: the
    listener table is [subs]; an entry of [fields] under one of these two
    names is a value written over the emitter's field. *)
Record comp : Type := Comp {
  fields : gmap string value;
  heap : gmap nat (list value);
  subs : list (string * handler);
  pool : list task;
  trace : list entry;
  own_arrows : bool
}.

Definition with_fields (f : gmap string value) (c : comp) : comp :=
  Comp f (heap c) (subs c) (pool c) (trace c) (own_arrows c).
Definition with_heap (h : gmap nat (list value)) (c : comp) : comp :=
  Comp (fields c) h (subs c) (pool c) (trace c) (own_arrows c).
Definition with_subs (s : list (string * handler)) (c : comp) : comp :=
  Comp (fields c) (heap c) s (pool c) (trace c) (own_arrows c).
Definition with_pool (p : list task) (c : comp) : comp :=
  Comp (fields c) (heap c) (subs c) p (trace c) (own_arrows c).
Definition log (e : entry) (c : comp) : comp :=
  Comp (fields c) (heap c) (subs c) (pool c) (trace c ++ [e]) (own_arrows c).

(** ** How a call ends *)

(** [Unhandled_error v] is what the emitter throws for an ['error'] event
    that has no listener: the emitted value [v] itself when it is an
    [Error], an [ERR_UNHANDLED_ERROR] around it otherwise. *)
Inductive exn : Type :=
  | Error_props_must_be_an_object
  | TypeError
  | Unhandled_error (v : value).

(** How a call ends, with the component as the call leaves it. *)
Inductive result : Type :=
  | Returned (c : comp)
  | Threw (e : exn) (c : comp).

Definition state_of (r : result) : comp :=
  match r with Returned c => c | Threw _ c => c end.

(** Statement after statement: an exception ends the sequence.  [None] is
    a call the model has no result for. *)
Definition andthen (m : option result) (k : comp -> option result)
    : option result :=
  match m with
  | Some (Returned c) => k c
  | Some (Threw e c) => Some (Threw e c)
  | None => None
  end.

(** ** Own fields and the prototype chain *)

(** The methods of the class whose name starts with an underscore: a
    write at ['_' + name] can put an own field of the same name in front
    of them. *)
Definition class_methods : list string :=
  ["_getComponentMSONSchema"; "_create"; "_emitChange"; "_set"; "_push";
   "_setIfUndefinedProp"; "_setIfUndefined"; "_setName"; "_setPassed";
   "_setDefaults"; "_setListeners"; "_get"; "_getIfAllowed";
   "_bubbleUpEvents"; "_setOn"; "_getFrom"].

(** The methods of [Object.prototype] whose name starts with an
    underscore. *)
Definition object_methods : list string :=
  ["__defineGetter__"; "__defineSetter__"; "__lookupGetter__";
   "__lookupSetter__"].

(** What a key that starts with an underscore finds on the prototype
    chain. *)
Definition inherited (k : string) : value :=
  if bool_decide (k ∈ class_methods ++ object_methods) then VFun k else VUndef.

(** The number of events that have a listener: the emitter's
    [_eventsCount]. *)
Definition event_types (s : list (string * handler)) : nat :=
  length (remove_dups (map fst s)).

(** [this[k]], for a key [k] that starts with an underscore: the own
    field, the emitter's own field, or the inherited member. *)
Definition field (k : string) (c : comp) : value :=
  match fields c !! k with
  | Some v => v
  | None =>
      if String.eqb k "_events" then VInternal "_events"
      else if String.eqb k "_eventsCount" then VNum (Z.of_nat (event_types (subs c)))
      else if String.eqb k "__proto__" then VInternal "__proto__"
      else inherited k
  end.

(** ['_' + name]. *)
Definition backing (name : string) : string := "_" ++ name.

Arguments backing : simpl never.

(** The call [this.m(...)] of a method [m] of [class_methods], [body]
    being the method run on [c].  An own field [m] that holds no function
    makes the call a [TypeError]; an own field that holds another function
    makes the call run that function, for which there is no result
    here. *)
Definition send (m : string) (c : comp) (body : option result) : option result :=
  match fields c !! m with
  | None => body
  | Some (VFun f) => if String.eqb f m then body else None
  | Some _ => Some (Threw TypeError c)
  end.

(** The use, as a function, of the arrow held in the own field [m]:
    called, or handed to the emitter, which checks that it is given a
    function. *)
Definition with_arrow (m : string) (c : comp) (body : option result)
    : option result :=
  match fields c !! m with
  | Some (VFun f) => if String.eqb f m then body else None
  | _ => Some (Threw TypeError c)
  end.

(** ** The event emitter

    Node's [EventEmitter], as far as the class uses it: [on] appends,
    [removeListener] removes at most one instance (the most recently
    added), [removeAllListeners] drops everything and [emit] calls the
    listeners registered for the event, synchronously and in registration
    order, over a copy of the listener array taken when [emit] starts.  An
    ['error'] event without listener is thrown.  [on] emits
    ['newListener'] before it adds, and [removeListener] emits
    ['removeListener'] after it has removed, when these events have
    listeners; [removeAllListeners], which the class calls on a fresh copy
    only, is taken on an emitter without listener of ['removeListener'].
    The emitter reads its table in [this._events] and counts in
    [this._eventsCount]: once a value has been written over one of them,
    the operation that reads it has no result here.  The warning [on]
    prints when an event gets more than [_maxListeners] listeners is no
    event of the emitter. *)

(** Removes the first pair of [s] that matches; used on the reversed list. *)
Fixpoint remove_first (e : string) (p : handler -> bool)
    (s : list (string * handler)) : list (string * handler) :=
  match s with
  | [] => []
  | (k, h) :: s' =>
      if String.eqb k e && p h then s' else (k, h) :: remove_first e p s'
  end.

Fixpoint handlers_of (e : string) (s : list (string * handler)) : list handler :=
  match s with
  | [] => []
  | (k, h) :: s' =>
      if String.eqb k e then h :: handlers_of e s' else handlers_of e s'
  end.

(** The [switch (listener.event)] at the end of a listener chain. *)
Definition milestone_of (e : string) : option string :=
  if String.eqb e "create" then Some "created"
  else if String.eqb e "load" then Some "loaded"
  else None.

(** The own field that holds the arrow emitting the milestone [m]. *)
Definition factory_of (m : string) : string :=
  if String.eqb m "created" then "_emitCreatedFactory" else "_emitLoadedFactory".

Section Handlers.
(** [emit], for the calls a handler makes. *)
Variable emit : string -> list value -> comp -> option result.

(** The body of [_emitChange(name, value)]: the specific event, then
    ['$change']. *)
Definition emitChange_with (name : string) (v : value) (c : comp) : option result :=
  andthen (emit name [v] c) (fun c1 => emit "$change" [VStr name; v] c1).

(** A call of the arrow held in [_emitCreatedFactory] ([m] is
    ['created']) or in [_emitLoadedFactory] ([m] is ['loaded']): its body
    is [this._emitChange(m)].  An arrow is bound to the instance whose
    constructor made it: on a copy made by [clone] the arrow is the one of
    the source and emits there, not on the copy. *)
Definition arrow_call (m : string) (c : comp) : option result :=
  if own_arrows c then send "_emitChange" c (emitChange_with m VUndef c)
  else Some (Returned c).

(** The body of the [async] closure from the point where [output] holds
    the previous result and [rest] are the actions still to run: the next
    action is started and the chain suspends on its promise, or, with no
    action left, the [switch] calls the arrow of the milestone.  An
    exception inside the closure rejects the promise the closure returned,
    which nobody holds: the closure ends there. *)
Definition chain_go (l : listener) (ifData output : value)
    (rest : list action) (c : comp) : option comp :=
  match rest with
  | a :: rest' =>
      let c1 := log (Ran (act_id a) (l_event l) ifData output) c in
      Some (with_pool
              (pool c1 ++ [Task l ifData rest' (act_run a (l_event l) ifData output)])
              c1)
  | [] =>
      match milestone_of (l_event l) with
      | Some m => state_of <$> with_arrow (factory_of m) c (arrow_call m c)
      | None => Some c
      end
  end.

Definition run_handler (h : handler) (c : comp) : option result :=
  match h with
  | HEmitCreated => arrow_call "created" c
  | HEmitLoaded => arrow_call "loaded" c
  | HChain l ifData => Returned <$> chain_go l ifData VNull (l_actions l) c
  end.

(** An exception of a listener leaves [emit]: the listeners after it are
    not called. *)
Fixpoint run_handlers (hs : list handler) (c : comp) : option result :=
  match hs with
  | [] => Some (Returned c)
  | h :: hs' => andthen (run_handler h c) (run_handlers hs')
  end.
End Handlers.

(** [this.emit(e, ...args)].  Handlers may emit in turn; [depth] bounds the
    nesting of [emit] calls, and [None] is the exhausted call stack. *)
Fixpoint emit (depth : nat) (e : string) (args : list value) (c : comp)
    : option result :=
  match depth with
  | 0 => None
  | S d =>
      match fields c !! "_events" with
      | Some _ => None
      | None =>
          let c0 := log (Emitted e args) c in
          match String.eqb e "error", handlers_of e (subs c) with
          | true, [] => Some (Threw (Unhandled_error (default VUndef (head args))) c0)
          | _, hs => run_handlers (emit d) hs c0
          end
      end
  end.

Arguments emit : simpl never.

(** The emitter's table and counter are its own. *)
Definition table_intact (c : comp) : bool :=
  match fields c !! "_events", fields c !! "_eventsCount" with
  | None, None => true
  | _, _ => false
  end.

(** The emitter's own event [ev] about the listener [h] of [e], emitted
    when [ev] has a listener. *)
Definition meta (depth : nat) (ev e : string) (h : handler) (c : comp)
    : option result :=
  match handlers_of ev (subs c) with
  | [] => Some (Returned c)
  | _ => emit depth ev [VStr e; handler_value h] c
  end.

(** [this.on(e, h)]. *)
Definition on (depth : nat) (e : string) (h : handler) (c : comp) : option result :=
  if table_intact c
  then andthen (meta depth "newListener" e h c)
         (fun c1 => Some (Returned (with_subs (subs c1 ++ [(e, h)]) c1)))
  else None.

(** [this.removeListener(e, h)], [p] telling which subscribed functions
    are [h]. *)
Definition removeListener (depth : nat) (e : string) (p : handler -> bool)
    (h : handler) (c : comp) : option result :=
  if table_intact c
  then let s := rev (remove_first e p (rev (subs c))) in
       if Nat.eqb (length s) (length (subs c)) then Some (Returned c)
       else meta depth "removeListener" e h (with_subs s c)
  else None.

(** [removeAllListeners()]. *)
Definition removeAllListeners (c : comp) : comp := with_subs [] c.

(** [_emitChange(name, value)]. *)
Definition _emitChange (depth : nat) (name : string) (v : value) (c : comp)
    : option result :=
  send "_emitChange" c (emitChange_with (emit depth) name v c).

(** The bodies of the two arrows, run on the instance they are bound to. *)
Definition _emitCreatedFactory (depth : nat) (c : comp) : option result :=
  _emitChange depth "created" VUndef c.

Definition _emitLoadedFactory (depth : nat) (c : comp) : option result :=
  _emitChange depth "loaded" VUndef c.

Definition emitLoad (depth : nat) (c : comp) : option result :=
  _emitChange depth "load" VUndef c.

(** The scheduler resumes the [i]-th suspended chain.  A rejection leaves
    the [async] closure through the [await]: nothing after it runs, and
    the closure's own promise, which [emit] dropped, rejects unobserved.
    A resolution becomes [output] and the loop goes on. *)
Definition resume (depth : nat) (i : nat) (c : comp) : option comp :=
  match pool c !! i with
  | None => None
  | Some t =>
      let c1 := with_pool (delete i (pool c)) c in
      match t_pending t with
      | Rejected _ => Some c1
      | Resolved v => chain_go (emit depth) (t_listener t) (t_ifData t) v (t_rest t) c1
      end
  end.

(** ** The property store *)

(** The body of [_get(name)]. *)
Definition _get (name : string) (c : comp) : value :=
  if is_undefined (field (backing name) c) then VNull else field (backing name) c.

(** [_set(name, value)].  An assignment to [__proto__] goes to the setter
    of [Object.prototype] and changes the prototype of the instance: there
    is no result for it here. *)
Definition _set (depth : nat) (name : string) (v : value) (c : comp)
    : option result :=
  send "_set" c
    (if negb (strict_eq (field (backing name) c) v)
        && (negb (is_undefined (field (backing name) c)) || negb (is_null v))
     then if String.eqb (backing name) "__proto__" then None
          else _emitChange depth name v
                 (with_fields (<[backing name := v]> (fields c)) c)
     else Some (Returned c)).

(** [_push(name, value)].  [Array.isArray(values)] holds for the arrays
    of the heap; a fresh array is allocated when the property holds none,
    and [values.push] mutates the array in place. *)
Definition _push (depth : nat) (name : string) (v : value) (c : comp)
    : option result :=
  send "_push" c
    (send "_get" c
       (let r := match _get name c with
                 | VArr r => r
                 | _ => fresh (dom (heap c))
                 end in
        let old := match _get name c with
                   | VArr r => default [] (heap c !! r)
                   | _ => []
                   end in
        _set depth name (VArr r) (with_heap (<[r := old ++ [v]]> (heap c)) c))).

(** ** Arguments of [set] and of the constructor *)

(** A keyed mapping, read at the four names the class looks at.
    [p_listeners] is [undefined] or an array of listeners, given by its
    reference and its elements.  [p_other] are the remaining entries, under
    names that neither the class nor the emitter's constructor reads. *)
Record props : Type := Props {
  p_name : value;
  p_listeners : option (nat * list listener);
  p_passed : value;
  p_schema : value;
  p_other : list (string * value)
}.

Definition no_props : props := Props VUndef None VUndef VUndef [].

(** A value that is defined and has no [forEach]: [null], a boolean, a
    number, a string, a plain object. *)
Inductive scalar : Type :=
  | SNull
  | SBool (b : bool)
  | SNum (n : Z)
  | SStr (s : string)
  | SPlain (r : nat).

Definition scalar_value (s : scalar) : value :=
  match s with
  | SNull => VNull
  | SBool b => VBool b
  | SNum n => VNum n
  | SStr s => VStr s
  | SPlain r => VObj r
  end.

(** An element of a [listeners] array: a listener, or [null] or
    [undefined]. *)
Inductive item : Type :=
  | ItemListener (l : listener)
  | ItemNull.

(** A [listeners] entry that is not an array of listeners. *)
Inductive malformed : Type :=
  | NotAnArray (s : scalar)
  | HoledArray (r : nat) (items : list item).

Inductive jsarg : Type :=
  | JUndef
  | JNull
  | JBool (b : bool)
  | JNum (n : Z)
  | JStr (s : string)
  | JFun (name : string)
  | JArray (xs : list value)
  | JObject (p : props)
  | JMalformed (p : props) (m : malformed).
      (* the mapping [p] with [m] as its [listeners] *)

(** [typeof a === 'object']. *)
Definition typeof_object (a : jsarg) : bool :=
  match a with
  | JNull | JArray _ | JObject _ | JMalformed _ _ => true
  | _ => false
  end.

(** [if (a)]. *)
Definition truthy (a : jsarg) : bool :=
  match a with
  | JUndef | JNull => false
  | JBool b => b
  | JNum n => negb (Z.eqb n 0)
  | JStr s => negb (String.eqb s "")
  | _ => true
  end.

(** The argument read at [name], [listeners], [passed] and [schema], when
    its [listeners] is [undefined] or an array of listeners.  A property
    read on [null] or [undefined] is a [TypeError]: there is [None]. *)
Definition props_of (a : jsarg) : option props :=
  match a with
  | JUndef | JNull => None
  | JObject p => Some p
  | JFun nm => Some (Props (VStr nm) None VUndef VUndef [])
  | JMalformed _ _ => None
  | _ => Some no_props
  end.

(** [props.listeners], as [_setListeners] goes through it. *)
Inductive listeners_arg : Type :=
  | NoListeners
  | ListenerArray (r : nat) (items : list item)
  | Scalar (s : scalar).

Definition listeners_of (p : props) : listeners_arg :=
  match p_listeners p with
  | Some (r, ls) => ListenerArray r (map ItemListener ls)
  | None => NoListeners
  end.

(** The argument as the class reads it; [None] on [null] and
    [undefined]. *)
Definition mapping_of (a : jsarg) : option (props * listeners_arg) :=
  match a with
  | JMalformed p (NotAnArray s) => Some (p, Scalar s)
  | JMalformed p (HoledArray r items) => Some (p, ListenerArray r items)
  | _ => (fun p => (p, listeners_of p)) <$> props_of a
  end.

(** ** Setters *)

(** [_setIfUndefinedProp(props, name)], given [props[name]]. *)
Definition _setIfUndefinedProp (depth : nat) (v : value) (name : string)
    (c : comp) : option result :=
  send "_setIfUndefinedProp" c
    (if negb (is_undefined v) then _set depth name v c else Some (Returned c)).

Definition _setName (depth : nat) (p : props) (c : comp) : option result :=
  send "_setName" c (_setIfUndefinedProp depth (p_name p) "name" c).

Definition _setPassed (depth : nat) (p : props) (c : comp) : option result :=
  send "_setPassed" c (_setIfUndefinedProp depth (p_passed p) "passed" c).

(** [props.listeners.forEach(listener => this.on(listener.event, async ...))]:
    reading [listener.event] on [null] or [undefined] is a [TypeError],
    with the listeners before it subscribed. *)
Fixpoint subscribe_all (depth : nat) (ifData : value) (items : list item)
    (c : comp) : option result :=
  match items with
  | [] => Some (Returned c)
  | ItemNull :: _ => Some (Threw TypeError c)
  | ItemListener l :: items' =>
      andthen (on depth (l_event l) (HChain l ifData) c)
        (subscribe_all depth ifData items')
  end.

(** [_setListeners(props)], [la] being [props.listeners].  The closures
    assign [hasOnCreate] and [hasOnLoad] when they run, which is at a
    later [emit]; by the two tests at the end of the method both flags
    still hold their initial value.  A [listeners] without [forEach] is a
    [TypeError] after [_set('listeners', ...)], and the method is left
    with both default emitters removed. *)
Definition _setListeners (depth : nat) (p : props) (la : listeners_arg)
    (c : comp) : option result :=
  send "_setListeners" c
    (let hasOnCreate := false in
     let hasOnLoad := false in
     andthen (with_arrow "_emitCreatedFactory" c
                (removeListener depth "create" is_created_factory HEmitCreated c))
       (fun c1 =>
     andthen (with_arrow "_emitLoadedFactory" c1
                (removeListener depth "load" is_loaded_factory HEmitLoaded c1))
       (fun c2 =>
     andthen (match la with
              | NoListeners => Some (Returned c2)
              | ListenerArray r items =>
                  let ifData := p_passed p in
                  andthen (_setIfUndefinedProp depth (VObj r) "listeners" c2)
                    (subscribe_all depth ifData items)
              | Scalar s =>
                  andthen (_setIfUndefinedProp depth (scalar_value s) "listeners" c2)
                    (fun c' => Some (Threw TypeError c'))
              end)
       (fun c3 =>
     andthen (if negb hasOnCreate
              then with_arrow "_emitCreatedFactory" c3
                     (on depth "create" HEmitCreated c3)
              else Some (Returned c3))
       (fun c4 =>
     if negb hasOnLoad
     then with_arrow "_emitLoadedFactory" c4 (on depth "load" HEmitLoaded c4)
     else Some (Returned c4)))))).

(** [set(props)]. *)
Definition set (depth : nat) (a : jsarg) (c : comp) : option result :=
  if negb (typeof_object a) then Some (Threw Error_props_must_be_an_object c)
  else
    match mapping_of a with
    | None =>
        send "_setName" c (send "_setIfUndefinedProp" c (Some (Threw TypeError c)))
    | Some (p, la) =>
        andthen (_setName depth p c) (fun c1 =>
        andthen (_setListeners depth p la c1) (fun c2 =>
        andthen (_setPassed depth p c2) (fun c3 =>
        if negb (is_undefined (p_schema p))
        then _push depth "schema" (p_schema p) c3
        else Some (Returned c3))))
    end.

(** ** Getters *)

Definition allowedNames : list string := ["name"; "listeners"; "passed"; "schema"].

(** The body of [_getIfAllowed(name, ...allowedNames)]: falls off the end,
    that is returns [undefined], for a name that is not allowed. *)
Definition _getIfAllowed (name : string) (allowed : list string) (c : comp) : value :=
  if bool_decide (name ∈ allowed) then _get name c else VUndef.

(** The body of [getOne(name)]. *)
Definition getOne (name : string) (c : comp) : value :=
  _getIfAllowed name allowedNames c.

(** No own field stands in front of the method [m]. *)
Definition method_ok (m : string) (c : comp) : bool :=
  match fields c !! m with
  | None => true
  | Some (VFun f) => String.eqb f m
  | Some _ => false
  end.

(** The methods [getOne(name)] goes through are those of the class. *)
Definition getOne_ok (name : string) (c : comp) : bool :=
  method_ok "_getIfAllowed" c
  && (negb (bool_decide (name ∈ allowedNames)) || method_ok "_get" c).

(** [name.replace('_', '')]: the first underscore is dropped. *)
Fixpoint replace_underscore (s : string) : string :=
  match s with
  | EmptyString => EmptyString
  | String a s' =>
      if Ascii.eqb a "_"%char then s' else String a (replace_underscore s')
  end.

(** The emitter's own enumerable fields that are not entries of
    [fields]. *)
Definition emitter_fields : list string := ["_events"; "_eventsCount"].

(** The own enumerable properties [_.each(this, ...)] visits: those of
    the emitter, then the others. *)
Definition own_names (c : comp) : list string :=
  emitter_fields
  ++ List.filter (fun k => negb (bool_decide (k ∈ emitter_fields)))
       (map fst (map_to_list (fields c))).

(** [values[n] = v] on a plain object: [__proto__] is no key of the
    object, an assignment to it goes to the setter of [Object.prototype]. *)
Definition assign (n : string) (v : value) (values : gmap string value)
    : gmap string value :=
  if String.eqb n "__proto__" then values else <[n := v]> values.

(** A snapshot object: a name may be present and hold [undefined]. *)
Definition snapshot_of (names : list string) (c : comp) : gmap string value :=
  foldl (fun values n => assign n (getOne n c) values) ∅ names.

(** The object [get()] builds. *)
Definition get_all (c : comp) : gmap string value :=
  snapshot_of (map replace_underscore (own_names c)) c.

Inductive getarg : Type :=
  | GNothing
  | GNames (names : list string)
  | GName (name : string).

(** [Broken]: a getter method is overwritten on the instance, and the
    call is a [TypeError] or runs the function written over the method. *)
Inductive getres : Type :=
  | Snapshot (values : gmap string value)
  | Single (v : value)
  | Broken.

Definition snapshot (names : list string) (c : comp) : getres :=
  if forallb (fun n => getOne_ok n c) names
  then Snapshot (snapshot_of names c)
  else Broken.

(** [get(names)]; the empty string is falsy. *)
Definition get (a : getarg) (c : comp) : getres :=
  match a with
  | GNothing => snapshot (map replace_underscore (own_names c)) c
  | GNames names => snapshot names c
  | GName name =>
      if String.eqb name "" then snapshot (map replace_underscore (own_names c)) c
      else if getOne_ok name c then Single (getOne name c) else Broken
  end.

(** ** Identity, construction, cloning *)

(** [getNextKey()]: [nextKey++] on the module's counter, which starts at
    [0].  The counter is a double: at [2^53] the increment is lost. *)
Definition getNextKey (nextKey : Z) : Z * Z :=
  (nextKey, if (nextKey <? 2 ^ 53)%Z then (nextKey + 1)%Z else nextKey).

Definition getKey (c : comp) : value := field "_key" c.

(** The instance when [super(props)] has returned and the two class
    properties are initialised: the emitter has set [_maxListeners] to
    [undefined]. *)
Definition new_instance : comp :=
  Comp (<["_emitLoadedFactory" := VFun "_emitLoadedFactory"]>
          (<["_emitCreatedFactory" := VFun "_emitCreatedFactory"]>
             (<["_maxListeners" := VUndef]> ∅)))
       ∅ [] [] [] true.

Definition base_props : props := Props VUndef None VUndef VBaseSchema [].

(** [_create(props)]. *)
Definition _create (depth : nat) (c : comp) : option result :=
  send "_create" c
    (send "_getComponentMSONSchema" c (set depth (JObject base_props) c)).

(** [props === undefined ? {} : props]. *)
Definition effective (a : jsarg) : jsarg :=
  match a with JUndef => JObject no_props | _ => a end.

(** The first statement of the constructor: [if (props) this._setName(props)]. *)
Definition name_first (d : nat) (a : jsarg) : option result :=
  if truthy a
  then match mapping_of a with
       | Some (p, _) => _setName d p new_instance
       | None => Some (Returned new_instance)
       end
  else Some (Returned new_instance).

(** The constructor up to and including [this._emitChange('create')]. *)
Definition construct_body (depth : nat) (a : jsarg) : option result :=
  andthen (name_first depth a) (fun c1 =>
  andthen (_create depth c1) (fun c2 =>
  andthen (set depth (effective a) c2) (fun c3 =>
  _emitChange depth "create" VUndef c3))).

(** [new Component(props)] with the module's counter threaded through. *)
Definition constructor (depth : nat) (a : jsarg) (nextKey : Z)
    : option (result * Z) :=
  r ← construct_body depth a;
  match r with
  | Threw e c => Some (Threw e c, nextKey)
  | Returned c =>
      let '(key, nextKey') := getNextKey nextKey in
      Some (Returned (with_fields (<["_key" := VNum key]> (fields c)) c), nextKey')
  end.

(** [clone()]: [_.cloneDeep] copies the fields, the arrays included, and
    [removeAllListeners] leaves the copy without subscriptions.  The copy
    is a new object: no chain of the source is suspended on it and its
    trace starts empty.  A reference held in a field of the copy names the
    copy of the object it names in the source.  The two arrows are copied
    by reference and stay bound to the source. *)
Definition clone (c : comp) : comp :=
  removeAllListeners (Comp (fields c) (heap c) (subs c) [] [] false).

(** ** Class name *)

(** The truthiness of a value. *)
Definition truthy_value (v : value) : bool :=
  match v with
  | VUndef | VNull => false
  | VBool b => b
  | VNum n => negb (Z.eqb n 0)
  | VStr s => negb (String.eqb s "")
  | _ => true
  end.

(** [getClassName()], [ctor] being [this.constructor.name]. *)
Definition getClassName (ctor : string) (c : comp) : value :=
  if truthy_value (field "_className" c) then field "_className" c else VStr ctor.

(** ** Running the suspended chains *)


(** * The form dialog

    [src/mson-react/form-dialog.js].  The React component [FormDialog]
    keeps one flag, [open], in its state; its handlers set the flag and
    call the callbacks of its props.  A [setState] call is taken with the
    state it leaves; the calls made on the props and on the event are
    recorded in order. *)
Module FormDialog.

Inductive called : Type :=
  | OnClose
  | OnEdit
  | OnSave
  | OnDelete
  | PreventDefault.

(** The props the class reads.  [mode] is a string and [open] a
    boolean, or they are [undefined]; the callbacks are given or not; the
    remaining props are read for their truthiness.  [hasErrorForTouchedField] and [dirty] are what
    [form.hasErrorForTouchedField()] and [form.get('dirty')] return. *)
Record dialog_props : Type := DialogProps {
  mode : option string;
  open : option bool;
  onClose : bool;
  onEdit : bool;
  onSave : bool;
  onDelete : bool;
  forbidUpdate : bool;
  forbidDelete : bool;
  editable : bool;
  disabled : bool;
  archivedAt : bool;
  hasErrorForTouchedField : bool;
  dirty : bool
}.

(** [this.state.open] and the calls made so far. *)
Record state : Type := State {
  st_open : option bool;
  st_calls : list called
}.

(** [state = { open: false }]. *)
Definition initial_state : state := State (Some false) [].

Definition setState (o : option bool) (st : state) : state :=
  State o (st_calls st).

Definition notify (f : called) (st : state) : state :=
  State (st_open st) (st_calls st ++ [f]).

(** [this.props.mode !== 'edit']. *)
Definition mode_is (m : string) (p : dialog_props) : bool :=
  match mode p with
  | Some m' => String.eqb m' m
  | None => false
  end.

Definition handleClickOpen (st : state) : state := setState (Some true) st.

Definition handleClose (withCancelButton : bool) (p : dialog_props) (st : state) : state :=
  if withCancelButton || negb (mode_is "edit" p)
  then let st1 := setState (Some false) st in
       if onClose p then notify OnClose st1 else st1
  else st.

Definition handleEdit (p : dialog_props) (st : state) : state :=
  if onEdit p then notify OnEdit st else st.

Definition handleSave (p : dialog_props) (st : state) : state :=
  let st1 := notify PreventDefault st in
  if onSave p then notify OnSave st1 else st1.

Definition handleDelete (p : dialog_props) (st : state) : state :=
  if onDelete p then notify OnDelete st else st.

(** [prevProps.open !== this.props.open]. *)
Definition same_open (a b : option bool) : bool :=
  match a, b with
  | None, None => true
  | Some x, Some y => Bool.eqb x y
  | _, _ => false
  end.

Definition componentDidUpdate (prevProps p : dialog_props) (st : state) : state :=
  if negb (same_open (open prevProps) (open p)) then setState (open p) st else st.

(** The buttons [render] puts in the dialog. *)
Inductive button : Type :=
  | Save (disabled : bool)
  | Cancel
  | Edit
  | Delete
  | Restore.

Definition buttons (p : dialog_props) : list button :=
  let disableSave := hasErrorForTouchedField p || negb (dirty p) in
  if mode_is "edit" p || mode_is "new" p
  then [Save disableSave; Cancel]
  else if editable p && negb (disabled p)
          && (negb (forbidUpdate p) || negb (forbidDelete p))
  then (if forbidUpdate p then [] else [Edit])
       ++ (if forbidDelete p then []
           else [if archivedAt p then Restore else Delete])
  else [].

(** The [onClick] of the Cancel button. *)
Definition cancel (p : dialog_props) (st : state) : state := handleClose true p st.

(** The dialog's own [onClose]: the escape key, a click outside. *)
Definition dismiss (p : dialog_props) (st : state) : state := handleClose false p st.

(** Dialogs used as instances: a record shown with all callbacks given,
    the same being edited, and the first before [open] was passed. *)
Definition viewing : dialog_props :=
  DialogProps (Some "view") (Some true) true true true true
    false false true false false false true.

Definition editing : dialog_props :=
  DialogProps (Some "edit") (Some true) true true true true
    false false true false false false true.

Definition unopened : dialog_props :=
  DialogProps (Some "view") None true true true true
    false false true false false false true.

End FormDialog.

(** * Vocabulary of the properties *)

(** ** Frames and well-formed components *)

(** [grows c c']: same fields, heap, subscriptions and arrows; the pool and the
    trace of [c'] extend those of [c]. *)
Record grows (c c' : comp) : Prop := Grows {
  grows_fields : fields c' = fields c;
  grows_heap : heap c' = heap c;
  grows_subs : subs c' = subs c;
  grows_pool : ∃ ts, pool c' = pool c ++ ts;
  grows_trace : ∃ es, trace c' = trace c ++ es;
  grows_own : own_arrows c' = own_arrows c
}.

(** The class subscribes each function under one event only: the two
    bound arrows under ['create'] and ['load'], a listener's closure under
    the listener's event. *)
Definition registered_ok (p : string * handler) : Prop :=
  match p.2 with
  | HEmitCreated => p.1 = "create"
  | HEmitLoaded => p.1 = "load"
  | HChain l _ => l_event l = p.1
  end.

(** [keeps K c c']: the arrows, the heap and every own field outside [K]
    are those of [c], and the subscriptions of [c'] are as the class makes
    them when those of [c] are. *)
Record keeps (K : list string) (c c' : comp) : Prop := Keeps {
  keeps_own : own_arrows c' = own_arrows c;
  keeps_heap : heap c' = heap c;
  keeps_fields : ∀ k, ¬ In k K → fields c' !! k = fields c !! k;
  keeps_ok : Forall registered_ok (subs c) → Forall registered_ok (subs c')
}.

(** The same, up to the arrays the call allocates or extends. *)
Definition writes (K : list string) (c c' : comp) : Prop :=
  ∃ h, keeps K (with_heap h c) c'.

(** The two arrows are in their fields. *)
Definition arrows_held (c : comp) : Prop :=
  fields c !! "_emitCreatedFactory" = Some (VFun "_emitCreatedFactory")
  ∧ fields c !! "_emitLoadedFactory" = Some (VFun "_emitLoadedFactory").

(** The members the class calls are those the class and the emitter
    defined: no own field stands in front of a method, the two arrows are
    in their fields, and nothing is written over the emitter's table and
    counter. *)
Definition intact (c : comp) : Prop :=
  Forall (λ m, fields c !! m = None) class_methods
  ∧ arrows_held c
  ∧ fields c !! "_events" = None
  ∧ fields c !! "_eventsCount" = None.

(** The own fields [intact] speaks of. *)
Definition guarded_keys : list string :=
  class_methods
  ++ ["_emitCreatedFactory"; "_emitLoadedFactory"; "_events"; "_eventsCount"].

Definition wf (c : comp) : Prop := Forall registered_ok (subs c) ∧ intact c.

(** [wf], as a check. *)
Definition registered_check (p : string * handler) : bool :=
  match p.2 with
  | HEmitCreated => String.eqb p.1 "create"
  | HEmitLoaded => String.eqb p.1 "load"
  | HChain l _ => String.eqb (l_event l) p.1
  end.

Definition absent (k : string) (c : comp) : bool :=
  match fields c !! k with None => true | Some _ => false end.

Definition holds_arrow (k : string) (c : comp) : bool :=
  match fields c !! k with Some (VFun f) => String.eqb f k | _ => false end.

Definition wf_check (c : comp) : bool :=
  forallb registered_check (subs c)
  && forallb (λ m, absent m c) class_methods
  && holds_arrow "_emitCreatedFactory" c
  && holds_arrow "_emitLoadedFactory" c
  && absent "_events" c
  && absent "_eventsCount" c.

(** What [emit(e, ...)] needs to return: subscriptions as the class makes
    them, the emitter's table, the method [_emitChange] for the arrows,
    and the arrows themselves when [e] is ['create'] or ['load']. *)
Definition can_emit (e : string) (c : comp) : Prop :=
  Forall registered_ok (subs c)
  ∧ fields c !! "_events" = None
  ∧ fields c !! "_emitChange" = None
  ∧ (milestone_of e ≠ None → arrows_held c).

(** The event is ['error'] and has no listener. *)
Definition unhandled (e : string) (c : comp) : Prop :=
  e = "error" ∧ handlers_of "error" (subs c) = [].


(** ** The rule of [_set] *)

(** A changed value as the specification words it: the store is updated
    and the event named after the property is emitted. *)
Definition emits_when_changed (d : nat) (name : string) (v : value) (c : comp)
    : Prop :=
  strict_eq (field (backing name) c) v = false →
  field (backing name) c ≠ VUndef ∨ v ≠ VNull →
  ∃ r es, _set d name v c = Some r
          ∧ field (backing name) (state_of r) = v
          ∧ trace (state_of r) = trace c ++ Emitted name [v] :: es.

(** What [_set(name, v)] does with a changed value: the backing field
    holds [v] and [emit(name, v)] has been called; the call returns with
    ['$change'] emitted after it, unless the emitter threw [v] as an
    unhandled ['error']. *)
Definition stored_and_emitted (d : nat) (name : string) (v : value) (c : comp)
    : Prop :=
  ∃ r es, _set d name v c = Some r
          ∧ fields (state_of r) = <[backing name := v]> (fields c)
          ∧ trace (state_of r) = trace c ++ Emitted name [v] :: es
          ∧ (¬ unhandled name c →
             r = Returned (state_of r)
             ∧ In (Emitted "$change" [VStr name; v]) es)
          ∧ (unhandled name c →
             r = Threw (Unhandled_error v) (state_of r) ∧ es = []).

(** ** The wiring of [_setListeners] *)

(** The subscriptions [_setListeners(props)] leaves, as a function of the
    subscriptions it finds: one instance of each default emitter removed,
    one closure appended per declared listener, both default emitters
    appended. *)
Definition declared (p : props) : list (string * handler) :=
  match p_listeners p with
  | Some (_, ls) => map (λ l, (l_event l, HChain l (p_passed p))) ls
  | None => []
  end.

Definition defaults_removed (s : list (string * handler)) : list (string * handler) :=
  rev (remove_first "load" is_loaded_factory
         (rev (rev (remove_first "create" is_created_factory (rev s))))).

Definition rewired (p : props) (s : list (string * handler)) : list (string * handler) :=
  defaults_removed s ++ declared p ++ [("create", HEmitCreated); ("load", HEmitLoaded)].




Definition is_chain (h : handler) : bool :=
  match h with HChain _ _ => true | _ => false end.

(** The number of listener closures subscribed under [e]. *)
Definition chain_count (e : string) (s : list (string * handler)) : nat :=
  length (List.filter (λ q, String.eqb q.1 e && is_chain q.2) s).

(** The number of listeners of [ls] that declare [e]. *)
Definition declared_count (e : string) (ls : list listener) : nat :=
  length (List.filter (λ l, String.eqb (l_event l) e) ls).

(** The wiring as the specification words it: after a [set] call that
    supplies [listeners], the closures subscribed under each event are
    those of the supplied list, one per declared binding. *)
Definition rebuilds_from_supplied (d : nat) (a : jsarg) (c : comp) : Prop :=
  ∀ p r ls c',
    props_of a = Some p → p_listeners p = Some (r, ls) →
    set d a c = Some (Returned c') →
    ∀ e, chain_count e (subs c') = declared_count e ls.

(** ** Schema fragments *)

(** The elements of the array a property holds; none when it holds no
    array. *)
Definition contents (name : string) (c : comp) : list value :=
  match _get name c with
  | VArr r => default [] (heap c !! r)
  | _ => []
  end.

(** The last statement of [set(props)]. *)
Definition push_schema (d : nat) (p : props) (c : comp) : option result :=
  if negb (is_undefined (p_schema p)) then _push d "schema" (p_schema p) c
  else Some (Returned c).

(** The own fields [set] writes. *)
Definition written_by_set : list string :=
  ["_name"; "_listeners"; "_passed"; "_schema"].



(** ** Snapshots and the argument check *)

(** [get()] as the specification words it: no name outside the allow-list
    is a name of the snapshot. *)
Definition surfaces_only_allowed (c : comp) : Prop :=
  ∀ k, is_Some (get_all c !! k) → k ∈ allowedNames.




(** ** The module's components *)

(** The module: its counter [nextKey] and the components alive, in the
    order they came to be. *)
Record process : Type := Process {
  nextKey : Z;
  live : list comp
}.

Definition initial : process := Process 0 [].

(** [new Component(props)]; when the constructor throws there is no new
    component. *)
Definition new_Component (d : nat) (a : jsarg) (P : process) : option process :=
  rk ← constructor d a (nextKey P);
  match rk.1 with
  | Returned c => Some (Process rk.2 (live P ++ [c]))
  | Threw _ _ => Some (Process rk.2 (live P))
  end.

(** [live[i].clone()], the copy being kept alive. *)
Definition clone_at (i : nat) (P : process) : option process :=
  c ← live P !! i;
  Some (Process (nextKey P) (live P ++ [clone c])).

(** A call on the [i]-th component. *)
Inductive call : Type :=
  | CallSet (a : jsarg)
  | CallEmitLoad
  | CallResume (j : nat).

Definition do_call (d : nat) (f : call) (c : comp) : option result :=
  match f with
  | CallSet a => set d a c
  | CallEmitLoad => emitLoad d c
  | CallResume j => Returned <$> resume d j c
  end.

(** The component is as the call leaves it, returning or throwing. *)
Definition call_at (d : nat) (i : nat) (f : call) (P : process) : option process :=
  c ← live P !! i;
  r ← do_call d f c;
  Some (Process (nextKey P) (<[i := state_of r]> (live P))).

(** The processes reached by constructing components, cloning them, and
    calling [set], [emitLoad] and the scheduler on them. *)
Inductive reachable : process → Prop :=
  | reach_initial : reachable initial
  | reach_new d a P P' :
      reachable P → new_Component d a P = Some P' → reachable P'
  | reach_clone i P P' :
      reachable P → clone_at i P = Some P' → reachable P'
  | reach_call d i f P P' :
      reachable P → call_at d i f P = Some P' → reachable P'.


(** The constructor makes the two arrows of the instance it builds, and
    [clone] copies them by reference: the components the constructor made
    are those that hold arrows of their own. *)
Definition made_by_constructor (c : comp) : Prop := own_arrows c = true.

(** The number of components of [l] the constructor made. *)
Definition constructed (l : list comp) : Z :=
  Z.of_nat (length (List.filter own_arrows l)).

(** Uniqueness as the specification words it. *)
Definition keys_unique (P : process) : Prop :=
  ∀ i j ci cj,
    live P !! i = Some ci → live P !! j = Some cj → i ≠ j →
    getKey ci ≠ getKey cj.

(** The default arrows are subscribed and bound to the component. *)
Definition default_wired (c : comp) : Prop :=
  wf c ∧ own_arrows c = true
  ∧ In ("create", HEmitCreated) (subs c) ∧ In ("load", HEmitLoaded) (subs c).


(** ** A listener chain from its start to its end *)




(** The own fields [set(props)] writes, by what [props] defines. *)
Definition touched (p : props) : list string :=
  (if is_undefined (p_name p) then [] else ["_name"])
  ++ (match p_listeners p with Some _ => ["_listeners"] | None => [] end)
  ++ (if is_undefined (p_passed p) then [] else ["_passed"])
  ++ (if is_undefined (p_schema p) then [] else ["_schema"]).

(** ** Traces *)

(** The events of a trace, and the actions run in it. *)
Definition emitted (t : list entry) : list string :=
  omap (λ e, match e with Emitted ev _ => Some ev | Ran _ _ _ _ => None end) t.

Definition ran (t : list entry) : list nat :=
  omap (λ e, match e with Ran id _ _ _ => Some id | Emitted _ _ => None end) t.

(** Side conditions on concrete names. *)
Ltac ordinary :=
  first [ discriminate
        | (simpl; intuition discriminate) ].

Ltac in_written := intros k0 Hk0; simpl in Hk0 |- *; intuition.

(** Closes a conjunction of closed equations by evaluation. *)
Ltac evaluated :=
  repeat lazymatch goal with
         | |- _ ∧ _ => split; [vm_compute; reflexivity|]
         end;
  vm_compute; reflexivity.

(** ** Components and arguments used as instances *)

(** A component that holds the name ['x'] and has no subscriber. *)
Definition named_x : comp :=
  with_fields (<["_name" := VStr "x"]> (fields new_instance)) new_instance.

(** A component wired by [set({})] on a new instance. *)
Definition wired : comp :=
  with_subs [("create", HEmitCreated); ("load", HEmitLoaded)] new_instance.

(** The same with the key [0]. *)
Definition keyed : comp :=
  with_fields (<["_key" := VNum 0]> (fields wired)) wired.

Definition load_listener : listener :=
  Listener "load" [Action 1 (λ _ _ _, Resolved VNull)].

Definition listening : props :=
  Props VUndef (Some (1, [load_listener])) VUndef VUndef [].

(** A new instance after [set({listeners: [load_listener]})]. *)
Definition listening_once : comp :=
  Comp (<["_listeners" := VObj 1]> (fields new_instance)) ∅
       [("load", HChain load_listener VUndef);
        ("create", HEmitCreated); ("load", HEmitLoaded)]
       []
       [Emitted "listeners" [VObj 1];
        Emitted "$change" [VStr "listeners"; VObj 1]]
       true.


(** [{name: 'x', schema: {component: 'TextField'}}], the fragment being
    the caller's object [VObj 7]. *)
Definition text_field_props : props := Props (VStr "x") None VUndef (VObj 7) [].

Definition fetch : action := Action 1 (λ _ _ _, Resolved (VNum 7)).
Definition keep : action := Action 2 (λ _ _ arg, Resolved arg).
Definition failing : action := Action 3 (λ _ _ _, Rejected (VStr "failed")).

Definition first_listener : listener := Listener "create" [fetch].
Definition second_listener : listener := Listener "create" [fetch; keep].

(** [{name: 'x', listeners: [first_listener, second_listener]}]. *)
Definition two_create_listeners : props :=
  Props (VStr "x") (Some (1, [first_listener; second_listener])) VUndef VUndef [].

Definition failing_listener : listener := Listener "create" [fetch; failing; keep].

(** [{name: 'x', listeners: [failing_listener]}]. *)
Definition one_failing_listener : props :=
  Props (VStr "x") (Some (1, [failing_listener])) VUndef VUndef [].

(** [{listeners: null}]. *)
Definition null_listeners : jsarg := JMalformed no_props (NotAnArray SNull).
(** * Properties *)

(** ** Sequencing and method lookup *)

Lemma andthen_Some m k r :
  andthen m k = Some r →
  (∃ c1, m = Some (Returned c1) ∧ k c1 = Some r)
  ∨ (∃ e c1, m = Some (Threw e c1) ∧ r = Threw e c1).
Proof.
  destruct m as [[c1|e c1]|]; simpl; [|intros [= <-]|done].
  - intros H. left. by exists c1.
  - right. by exists e, c1.
Qed.

Lemma andthen_Returned m k c' :
  andthen m k = Some (Returned c') →
  ∃ c1, m = Some (Returned c1) ∧ k c1 = Some (Returned c').
Proof.
  intros H. apply andthen_Some in H as [H|(e & c1 & _ & [=])]. done.
Qed.

Lemma send_Some m c body r :
  send m c body = Some r → body = Some r ∨ r = Threw TypeError c.
Proof.
  unfold send. destruct (fields c !! m) as [v|]; [|by left].
  destruct v; try (intros [= <-]; by right).
  destruct (String.eqb f m); [by left|done].
Qed.

Lemma send_Returned m c body c' :
  send m c body = Some (Returned c') → body = Some (Returned c').
Proof. intros H. by apply send_Some in H as [H|[=]]. Qed.

Lemma with_arrow_Some m c body r :
  with_arrow m c body = Some r → body = Some r ∨ r = Threw TypeError c.
Proof.
  unfold with_arrow. destruct (fields c !! m) as [v|]; [|intros [= <-]; by right].
  destruct v; try (intros [= <-]; by right).
  destruct (String.eqb f m); [by left|done].
Qed.

Lemma with_arrow_Returned m c body c' :
  with_arrow m c body = Some (Returned c') → body = Some (Returned c').
Proof. intros H. by apply with_arrow_Some in H as [H|[=]]. Qed.

Lemma send_method m c body : fields c !! m = None → send m c body = body.
Proof. unfold send. by intros ->. Qed.

Lemma with_arrow_held m c body :
  fields c !! m = Some (VFun m) → with_arrow m c body = body.
Proof. unfold with_arrow. intros ->. by rewrite String.eqb_refl. Qed.

Lemma intact_method m c : intact c → In m class_methods → fields c !! m = None.
Proof.
  intros (Hm & _) Hin. rewrite Forall_forall in Hm. by apply Hm, list_elem_of_In.
Qed.

Lemma send_wf m c body : wf c → In m class_methods → send m c body = body.
Proof. intros [_ Hi] Hin. apply send_method. by apply intact_method. Qed.

Lemma with_arrow_created c body :
  wf c → with_arrow "_emitCreatedFactory" c body = body.
Proof. intros (_ & _ & [H _] & _). by apply with_arrow_held. Qed.

Lemma with_arrow_loaded c body :
  wf c → with_arrow "_emitLoadedFactory" c body = body.
Proof. intros (_ & _ & [_ H] & _). by apply with_arrow_held. Qed.

Lemma table_intact_wf c : wf c → table_intact c = true.
Proof. intros (_ & _ & _ & He & Hc). unfold table_intact. by rewrite He, Hc. Qed.

(** ** What a synchronous call can change *)

Lemma grows_refl c : grows c c.
Proof. split; try done; exists []; by rewrite app_nil_r. Qed.

Lemma grows_trans c1 c2 c3 : grows c1 c2 → grows c2 c3 → grows c1 c3.
Proof.
  intros [Hf Hh Hs [ts Hp] [es Ht] Ho] [Hf' Hh' Hs' [ts' Hp'] [es' Ht'] Ho'].
  split; try congruence.
  - exists (ts ++ ts'). by rewrite Hp', Hp, app_assoc.
  - exists (es ++ es'). by rewrite Ht', Ht, app_assoc.
Qed.

Lemma grows_log e c : grows c (log e c).
Proof. split; try done; [exists []; by rewrite app_nil_r | by exists [e]]. Qed.

Lemma andthen_grows m k c r :
  (∀ r1, m = Some r1 → grows c (state_of r1)) →
  (∀ c1 r2, k c1 = Some r2 → grows c1 (state_of r2)) →
  andthen m k = Some r → grows c (state_of r).
Proof.
  intros Hm Hk H. apply andthen_Some in H as [(c1 & H1 & H2)|(e & c1 & H1 & ->)].
  - eapply grows_trans; [apply (Hm _ H1)|by apply Hk].
  - apply (Hm _ H1).
Qed.

Lemma send_grows m c body r :
  (∀ r1, body = Some r1 → grows c (state_of r1)) →
  send m c body = Some r → grows c (state_of r).
Proof. intros Hb H. apply send_Some in H as [H| ->]; [by apply Hb|apply grows_refl]. Qed.

Lemma with_arrow_grows m c body r :
  (∀ r1, body = Some r1 → grows c (state_of r1)) →
  with_arrow m c body = Some r → grows c (state_of r).
Proof.
  intros Hb H. apply with_arrow_Some in H as [H| ->]; [by apply Hb|apply grows_refl].
Qed.

Section HandlersGrow.
Variable emitp : string → list value → comp → option result.
Hypothesis emitp_grows : ∀ e a c r, emitp e a c = Some r → grows c (state_of r).

Lemma emitChange_with_grows name v c r :
  emitChange_with emitp name v c = Some r → grows c (state_of r).
Proof. apply andthen_grows; eauto. Qed.

Lemma arrow_call_grows m c r : arrow_call emitp m c = Some r → grows c (state_of r).
Proof.
  unfold arrow_call. destruct (own_arrows c).
  - apply send_grows. intros r1. apply emitChange_with_grows.
  - intros [= <-]. apply grows_refl.
Qed.

Lemma chain_go_grows l ifd out rest c c' :
  chain_go emitp l ifd out rest c = Some c' → grows c c'.
Proof.
  destruct rest as [|a rest]; simpl.
  - destruct (milestone_of (l_event l)) as [m|]; [|intros [= <-]; apply grows_refl].
    intros H. apply fmap_Some in H as (r & H & ->).
    revert H. apply with_arrow_grows. intros r1. apply arrow_call_grows.
  - intros [= <-]. split; simpl; try done; eauto.
Qed.

Lemma run_handler_grows h c r :
  run_handler emitp h c = Some r → grows c (state_of r).
Proof.
  destruct h; simpl; eauto using arrow_call_grows.
  intros H. apply fmap_Some in H as (c' & H & ->). simpl.
  by eapply chain_go_grows.
Qed.

Lemma run_handlers_grows hs c r :
  run_handlers emitp hs c = Some r → grows c (state_of r).
Proof.
  revert c r. induction hs as [|h hs IH]; simpl; intros c r.
  - intros [= <-]. apply grows_refl.
  - apply andthen_grows; [intros r1; apply run_handler_grows|intros c1 r2; apply IH].
Qed.
End HandlersGrow.

Lemma emit_S d e a c :
  emit (S d) e a c
  = match fields c !! "_events" with
    | Some _ => None
    | None =>
        match String.eqb e "error", handlers_of e (subs c) with
        | true, [] =>
            Some (Threw (Unhandled_error (default VUndef (head a)))
                    (log (Emitted e a) c))
        | _, hs => run_handlers (emit d) hs (log (Emitted e a) c)
        end
    end.
Proof. done. Qed.

(** What [emit] does when it does not throw the event. *)
Lemma emit_handled d e a c :
  fields c !! "_events" = None → ¬ unhandled e c →
  emit (S d) e a c
  = run_handlers (emit d) (handlers_of e (subs c)) (log (Emitted e a) c).
Proof.
  intros He Hu. rewrite emit_S, He.
  destruct (String.eqb e "error") eqn:E; [|done].
  destruct (handlers_of e (subs c)) as [|h hs] eqn:Eh; [|done].
  apply String.eqb_eq in E as ->. by destruct Hu.
Qed.

Lemma emit_unhandled d e a c :
  fields c !! "_events" = None → unhandled e c →
  emit (S d) e a c
  = Some (Threw (Unhandled_error (default VUndef (head a))) (log (Emitted e a) c)).
Proof. intros He [-> Hu]. by rewrite emit_S, He, Hu. Qed.

Lemma emit_grows d e a c r : emit d e a c = Some r → grows c (state_of r).
Proof.
  revert e a c r. induction d as [|d IH]; intros e a c r; [done|].
  rewrite emit_S. destruct (fields c !! "_events"); [done|].
  intros H.
  assert (run_handlers (emit d) (handlers_of e (subs c)) (log (Emitted e a) c) = Some r
          ∨ r = Threw (Unhandled_error (default VUndef (head a))) (log (Emitted e a) c))
    as [H'| ->].
  { destruct (String.eqb e "error"); [|by left].
    destruct (handlers_of e (subs c)); [right; congruence|by left]. }
  - eapply grows_trans; [apply (grows_log (Emitted e a))|].
    eapply run_handlers_grows; eauto.
  - apply grows_log.
Qed.

Lemma _emitChange_grows d name v c r :
  _emitChange d name v c = Some r → grows c (state_of r).
Proof.
  apply send_grows. intros r1. apply emitChange_with_grows.
  intros *. apply emit_grows.
Qed.

(** The entry of an [emit] call heads what the call adds to the trace. *)
Lemma emit_trace d e a c r :
  emit d e a c = Some r → ∃ es, trace (state_of r) = trace c ++ Emitted e a :: es.
Proof.
  destruct d as [|d]; [done|]. rewrite emit_S.
  destruct (fields c !! "_events"); [done|]. intros H.
  assert (run_handlers (emit d) (handlers_of e (subs c)) (log (Emitted e a) c) = Some r
          ∨ r = Threw (Unhandled_error (default VUndef (head a))) (log (Emitted e a) c))
    as [H'| ->].
  { destruct (String.eqb e "error"); [|by left].
    destruct (handlers_of e (subs c)); [right; congruence|by left]. }
  - apply run_handlers_grows in H'; [|intros *; apply emit_grows].
    destruct H' as [_ _ _ _ [es Ht] _]. exists es.
    rewrite Ht. simpl. by rewrite <- app_assoc.
  - by exists [].
Qed.

Lemma _emitChange_trace d name v c c' :
  _emitChange d name v c = Some (Returned c') →
  ∃ es, trace c' = trace c ++ Emitted name [v] :: es
        ∧ In (Emitted "$change" [VStr name; v]) es.
Proof.
  intros H. apply send_Returned in H. unfold emitChange_with in H.
  apply andthen_Returned in H as (c1 & E1 & H).
  apply emit_trace in E1 as [es1 H1]. apply emit_trace in H as [es2 H2].
  simpl in H1, H2.
  exists (es1 ++ Emitted "$change" [VStr name; v] :: es2). split.
  - rewrite H2, H1. by rewrite <- app_assoc.
  - apply in_or_app. right. by left.
Qed.

Lemma grows_keeps K c c' : grows c c' → keeps K c c'.
Proof.
  intros [Hf Hh Hs _ _ Ho]. split; try done.
  - intros k _. by rewrite Hf.
  - by rewrite Hs.
Qed.

Lemma keeps_refl K c : keeps K c c.
Proof. apply grows_keeps, grows_refl. Qed.

Lemma keeps_trans K c1 c2 c3 : keeps K c1 c2 → keeps K c2 c3 → keeps K c1 c3.
Proof.
  intros [Ho Hh Hf Hk] [Ho' Hh' Hf' Hk']. split; try congruence.
  - intros k Hn. by rewrite Hf', Hf.
  - auto.
Qed.

Lemma keeps_mono K K' c c' :
  (∀ k, In k K → In k K') → keeps K c c' → keeps K' c c'.
Proof. intros Hsub [Ho Hh Hf Hk]. split; try done. intros k Hn. apply Hf. auto. Qed.

Lemma andthen_keeps K m k c r :
  (∀ r1, m = Some r1 → keeps K c (state_of r1)) →
  (∀ c1 r2, k c1 = Some r2 → keeps K c1 (state_of r2)) →
  andthen m k = Some r → keeps K c (state_of r).
Proof.
  intros Hm Hk H. apply andthen_Some in H as [(c1 & H1 & H2)|(e & c1 & H1 & ->)].
  - eapply keeps_trans; [apply (Hm _ H1)|by apply Hk].
  - apply (Hm _ H1).
Qed.

Lemma send_keeps K m c body r :
  (∀ r1, body = Some r1 → keeps K c (state_of r1)) →
  send m c body = Some r → keeps K c (state_of r).
Proof. intros Hb H. apply send_Some in H as [H| ->]; [by apply Hb|apply keeps_refl]. Qed.

Lemma with_arrow_keeps K m c body r :
  (∀ r1, body = Some r1 → keeps K c (state_of r1)) →
  with_arrow m c body = Some r → keeps K c (state_of r).
Proof.
  intros Hb H. apply with_arrow_Some in H as [H| ->]; [by apply Hb|apply keeps_refl].
Qed.

(** A field outside [K] reads the same, the emitter's counter apart. *)
Lemma keeps_field K c c' k :
  keeps K c c' → ¬ In k K → k ≠ "_eventsCount" → field k c' = field k c.
Proof.
  intros H Hk Hc. unfold field. rewrite (keeps_fields _ _ _ H k Hk).
  destruct (fields c !! k); [done|].
  destruct (String.eqb k "_events"); [done|].
  destruct (String.eqb k "_eventsCount") eqn:E; [|done].
  by apply String.eqb_eq in E.
Qed.

Lemma grows_field c c' k : grows c c' → field k c' = field k c.
Proof. intros [Hf _ Hs _ _ _]. unfold field. by rewrite Hf, Hs. Qed.

Lemma keeps_intact K c c' :
  keeps K c c' → (∀ k, In k K → ¬ In k guarded_keys) → intact c → intact c'.
Proof.
  intros Hk HK (Hm & [Hc Hl] & He & Hn).
  assert (∀ k, In k guarded_keys → fields c' !! k = fields c !! k) as Hsame.
  { intros k Hg. apply (keeps_fields _ _ _ Hk). intros Hin. by apply (HK k). }
  split; [|split; [split|split]].
  - rewrite Forall_forall in Hm |- *. intros m Hin.
    rewrite Hsame; [by apply Hm|].
    unfold guarded_keys. apply in_or_app. left. by apply list_elem_of_In.
  - rewrite Hsame; [done|]. unfold guarded_keys. apply in_or_app. right. by left.
  - rewrite Hsame; [done|]. unfold guarded_keys. apply in_or_app. right.
    right. by left.
  - rewrite Hsame; [done|]. unfold guarded_keys. apply in_or_app. right.
    right. right. by left.
  - rewrite Hsame; [done|]. unfold guarded_keys. apply in_or_app. right.
    right. right. right. by left.
Qed.

Lemma keeps_wf K c c' :
  keeps K c c' → (∀ k, In k K → ¬ In k guarded_keys) → wf c → wf c'.
Proof.
  intros Hk HK [Hs Hi]. split; [by apply (keeps_ok _ _ _ Hk)|].
  by apply (keeps_intact K c c').
Qed.

Lemma wf_grows c c' : grows c c' → wf c → wf c'.
Proof. intros G. apply (keeps_wf []); [by apply grows_keeps|by intros k []]. Qed.

(** ** [emit] returns *)

Lemma handlers_of_ok e s :
  Forall registered_ok s → Forall (λ h, registered_ok (e, h)) (handlers_of e s).
Proof.
  induction 1 as [|[k h] s Hk _ IH]; simpl; [constructor|].
  destruct (String.eqb k e) eqn:E; [|done].
  apply String.eqb_eq in E as <-. by constructor.
Qed.

Lemma milestone_of_leaf e m : milestone_of e = Some m → milestone_of m = None.
Proof.
  unfold milestone_of at 1.
  destruct (String.eqb e "create"); [by intros [= <-]|].
  destruct (String.eqb e "load"); [by intros [= <-]|done].
Qed.

Lemma milestone_of_error e m : milestone_of e = Some m → m ≠ "error".
Proof.
  unfold milestone_of.
  destruct (String.eqb e "create"); [by intros [= <-]|].
  destruct (String.eqb e "load"); [by intros [= <-]|done].
Qed.

Lemma milestone_factory e m c :
  milestone_of e = Some m → arrows_held c →
  fields c !! factory_of m = Some (VFun (factory_of m)).
Proof.
  unfold milestone_of. intros H [Hc Hl].
  destruct (String.eqb e "create"); [by injection H as <-|].
  destruct (String.eqb e "load"); [by injection H as <-|done].
Qed.

Lemma can_emit_grows e c c' : grows c c' → can_emit e c → can_emit e c'.
Proof.
  intros [Hf _ Hs _ _ _] (H1 & H2 & H3 & H4). unfold can_emit, arrows_held.
  by rewrite Hf, Hs.
Qed.

Lemma wf_can_emit e c : wf c → can_emit e c.
Proof.
  intros [Hs Hi]. pose proof Hi as (Hm & Ha & He & _).
  split; [done|]. split; [done|]. split; [|done].
  apply (intact_method "_emitChange"); [done|]. simpl. tauto.
Qed.

Lemma unhandled_grows e c c' : grows c c' → unhandled e c' ↔ unhandled e c.
Proof. intros [_ _ Hs _ _ _]. unfold unhandled. by rewrite Hs. Qed.

(** The handlers of an event other than ['create'] and ['load'] are
    listener closures, and emit nothing. *)
Lemma run_handlers_leaf emitp e hs c :
  milestone_of e = None →
  Forall (λ h, registered_ok (e, h)) hs →
  ∃ c', run_handlers emitp hs c = Some (Returned c').
Proof.
  intros He Hhs. revert c.
  induction Hhs as [|h hs Hh _ IH]; simpl; intros c; [by eexists|].
  destruct h as [| |l ifd]; unfold registered_ok in Hh; simpl in Hh.
  - by subst e.
  - by subst e.
  - simpl. destruct (l_actions l) as [|a rest]; simpl.
    + rewrite Hh, He. simpl. apply IH.
    + apply IH.
Qed.

Lemma emit_leaf d e a c :
  Forall registered_ok (subs c) → fields c !! "_events" = None →
  milestone_of e = None → ¬ unhandled e c →
  ∃ c', emit (S d) e a c = Some (Returned c').
Proof.
  intros Hs He Hm Hu. rewrite emit_handled by done.
  eapply run_handlers_leaf; [done|]. by apply handlers_of_ok.
Qed.

Lemma emitChange_leaf d m v c :
  Forall registered_ok (subs c) → fields c !! "_events" = None →
  milestone_of m = None → m ≠ "error" →
  ∃ c', emitChange_with (emit (S d)) m v c = Some (Returned c').
Proof.
  intros Hs He Hm Hne. unfold emitChange_with.
  destruct (emit_leaf d m [v] c) as [c1 E1]; try done.
  { by intros [? _]. }
  rewrite E1. simpl.
  apply emit_grows in E1 as G. destruct G as [Hf _ Hs1 _ _ _]. simpl in *.
  apply emit_leaf; try done.
  - by rewrite Hs1.
  - by rewrite Hf.
  - by intros [? _].
Qed.

Lemma arrow_call_total d m c :
  Forall registered_ok (subs c) → fields c !! "_events" = None →
  fields c !! "_emitChange" = None →
  milestone_of m = None → m ≠ "error" →
  ∃ c', arrow_call (emit (S d)) m c = Some (Returned c').
Proof.
  intros Hs He Hc Hm Hne. unfold arrow_call. destruct (own_arrows c); [|by eexists].
  rewrite send_method by done. by apply emitChange_leaf.
Qed.

Lemma chain_go_total d l ifd out rest c :
  can_emit (l_event l) c → is_Some (chain_go (emit (S d)) l ifd out rest c).
Proof.
  intros (Hs & He & Hc & Ha). destruct rest as [|a rest]; [|done].
  cbn [chain_go]. destruct (milestone_of (l_event l)) as [m|] eqn:E; [|done].
  rewrite with_arrow_held by (apply (milestone_factory (l_event l)); auto; congruence).
  destruct (arrow_call_total d m c) as [c' E']; try done.
  - by eapply milestone_of_leaf.
  - by eapply milestone_of_error.
  - by rewrite E'.
Qed.

Lemma run_handler_total d e h c :
  can_emit e c → registered_ok (e, h) →
  ∃ c', run_handler (emit (S d)) h c = Some (Returned c').
Proof.
  intros Hcan Hr. pose proof Hcan as (Hs & He & Hc & Ha).
  destruct h as [| |l ifd]; cbn [run_handler].
  - by apply arrow_call_total.
  - by apply arrow_call_total.
  - unfold registered_ok in Hr. simpl in Hr. subst e.
    destruct (chain_go_total d l ifd VNull (l_actions l) c Hcan) as [c' E].
    rewrite E. by eexists.
Qed.

Lemma run_handlers_total d e hs c :
  can_emit e c → Forall (λ h, registered_ok (e, h)) hs →
  ∃ c', run_handlers (emit (S d)) hs c = Some (Returned c').
Proof.
  intros Hcan Hhs. revert c Hcan.
  induction Hhs as [|h hs Hh _ IH]; intros c Hcan; [by eexists|].
  cbn [run_handlers].
  destruct (run_handler_total d e h c Hcan Hh) as [c1 E]. rewrite E. simpl.
  apply IH. eapply can_emit_grows; [|done].
  apply (run_handler_grows (emit (S d))) in E; [done|]. intros *. apply emit_grows.
Qed.

(** Two nested calls are all [emit] needs: a handler of ['create'] or
    ['load'] emits a milestone, and the handlers of a milestone or of
    ['$change'] emit nothing. *)
Lemma emit_total d e a c :
  can_emit e c → ¬ unhandled e c →
  ∃ c', emit (S (S d)) e a c = Some (Returned c').
Proof.
  intros Hcan Hu. pose proof Hcan as (Hs & He & _).
  rewrite emit_handled by done.
  apply (run_handlers_total d e); [|by apply handlers_of_ok].
  eapply can_emit_grows; [apply grows_log|done].
Qed.

Lemma can_emit_change e c : can_emit e c → can_emit "$change" c.
Proof. intros (H1 & H2 & H3 & _). by repeat split. Qed.

Lemma _emitChange_total d name v c :
  can_emit name c → ¬ unhandled name c →
  ∃ c', _emitChange (S (S d)) name v c = Some (Returned c').
Proof.
  intros Hcan Hu. unfold _emitChange. pose proof Hcan as (_ & _ & Hc & _).
  rewrite send_method by done. unfold emitChange_with.
  destruct (emit_total d name [v] c Hcan Hu) as [c1 E1]. rewrite E1. simpl.
  apply emit_total.
  - apply emit_grows in E1. eapply can_emit_grows; [done|]. by eapply can_emit_change.
  - by intros [? _].
Qed.

(** An unhandled ['error'] leaves [_emitChange] before ['$change']. *)
Lemma _emitChange_unhandled d name v c :
  fields c !! "_events" = None → fields c !! "_emitChange" = None →
  unhandled name c →
  _emitChange (S d) name v c
  = Some (Threw (Unhandled_error v) (log (Emitted name [v]) c)).
Proof.
  intros He Hc Hu. unfold _emitChange. rewrite send_method by done.
  unfold emitChange_with. by rewrite emit_unhandled.
Qed.

(** ** The emitter's operations *)

Lemma meta_grows d ev e h c r : meta d ev e h c = Some r → grows c (state_of r).
Proof.
  unfold meta. destruct (handlers_of ev (subs c)); [|apply emit_grows].
  intros [= <-]. apply grows_refl.
Qed.

Lemma meta_total d ev e h c :
  Forall registered_ok (subs c) → fields c !! "_events" = None →
  milestone_of ev = None → ev ≠ "error" →
  ∃ c', meta (S d) ev e h c = Some (Returned c').
Proof.
  intros Hs He Hm Hne. unfold meta.
  destruct (handlers_of ev (subs c)); [by eexists|].
  apply emit_leaf; try done. by intros [? _].
Qed.


Lemma on_Some d e h c r :
  on d e h c = Some r →
  ∃ c1, grows c c1
        ∧ (r = Returned (with_subs (subs c ++ [(e, h)]) c1) ∨ ∃ x, r = Threw x c1).
Proof.
  unfold on. destruct (table_intact c); [|done]. intros H.
  apply andthen_Some in H as [(c1 & H1 & [= <-])|(x & c1 & H1 & ->)].
  - apply meta_grows in H1. simpl in H1. exists c1. split; [done|]. left.
    by rewrite (grows_subs _ _ H1).
  - apply meta_grows in H1. exists c1. split; [done|]. right. by exists x.
Qed.

Lemma on_Returned d e h c c' :
  on d e h c = Some (Returned c') →
  ∃ c1, grows c c1 ∧ c' = with_subs (subs c ++ [(e, h)]) c1.
Proof.
  intros H. apply on_Some in H as (c1 & G & [[= ->]|[x [=]]]). by exists c1.
Qed.

Lemma on_keeps K d e h c r :
  registered_ok (e, h) → on d e h c = Some r → keeps K c (state_of r).
Proof.
  intros Hr H. apply on_Some in H as (c1 & G & [->|[x ->]]); simpl.
  - destruct G as [Hf Hh Hs _ _ Ho]. split; simpl; try done.
    + intros k _. by rewrite Hf.
    + intros Hok. apply Forall_app. split; [done|]. by constructor.
  - by apply grows_keeps.
Qed.

Lemma on_total d e h c :
  wf c →
  ∃ c1, grows c c1
        ∧ on (S d) e h c = Some (Returned (with_subs (subs c ++ [(e, h)]) c1)).
Proof.
  intros Hwf. unfold on. rewrite table_intact_wf by done.
  destruct Hwf as (Hs & _ & _ & He & _).
  destruct (meta_total d "newListener" e h c) as [c1 E]; try done.
  rewrite E. simpl. apply meta_grows in E as G. simpl in G.
  exists c1. split; [done|]. by rewrite (grows_subs _ _ G).
Qed.

Lemma remove_first_length e p s :
  length (remove_first e p s) = length s → remove_first e p s = s.
Proof.
  induction s as [|[k h] s IH]; simpl; [done|].
  destruct (_ && _); simpl.
  - intros H. exfalso. lia.
  - intros [= H]. by rewrite IH.
Qed.

Lemma remove_first_ok e q s :
  Forall registered_ok s → Forall registered_ok (remove_first e q s).
Proof.
  induction 1 as [|[k h] s Hk Hs IH]; simpl; [constructor|].
  destruct (_ && _); [done|by constructor].
Qed.

Lemma removeListener_Some d e p h c r :
  removeListener d e p h c = Some r →
  grows (with_subs (rev (remove_first e p (rev (subs c)))) c) (state_of r).
Proof.
  unfold removeListener. destruct (table_intact c); [|done].
  destruct (Nat.eqb _ _) eqn:E.
  - intros [= <-]. apply Nat.eqb_eq in E.
    rewrite length_rev, <- (length_rev (subs c)) in E.
    apply remove_first_length in E. rewrite E, rev_involutive.
    destruct c. apply grows_refl.
  - apply meta_grows.
Qed.

Lemma removeListener_keeps K d e p h c r :
  removeListener d e p h c = Some r → keeps K c (state_of r).
Proof.
  intros H. apply removeListener_Some in H as [Hf Hh Hs _ _ Ho]. simpl in *.
  split; try done.
  - intros k _. by rewrite Hf.
  - intros Hok. rewrite Hs. by apply Forall_rev, remove_first_ok, Forall_rev.
Qed.

Lemma removeListener_total d e p h c :
  wf c →
  ∃ c', removeListener (S d) e p h c = Some (Returned c')
        ∧ grows (with_subs (rev (remove_first e p (rev (subs c)))) c) c'.
Proof.
  intros Hwf. pose proof (table_intact_wf c Hwf) as Ht.
  destruct Hwf as (Hs & _ & _ & He & _).
  set (s := rev (remove_first e p (rev (subs c)))).
  assert (∃ c', (if Nat.eqb (length s) (length (subs c)) then Some (Returned c)
                 else meta (S d) "removeListener" e h (with_subs s c))
                = Some (Returned c')) as [c' E].
  { destruct (Nat.eqb _ _); [by eexists|].
    apply meta_total; try done. simpl.
    by apply Forall_rev, remove_first_ok, Forall_rev. }
  exists c'.
  assert (removeListener (S d) e p h c = Some (Returned c')) as E'
    by (unfold removeListener; by rewrite Ht).
  split; [done|]. by apply removeListener_Some in E'.
Qed.

(** ** Checking [wf] by evaluation *)

Lemma absent_None k c : absent k c = true → fields c !! k = None.
Proof. unfold absent. by destruct (fields c !! k). Qed.

Lemma holds_arrow_Some k c : holds_arrow k c = true → fields c !! k = Some (VFun k).
Proof.
  unfold holds_arrow. destruct (fields c !! k) as [[]|]; try done.
  intros H. by apply String.eqb_eq in H as ->.
Qed.

Lemma wf_check_wf c : wf_check c = true → wf c.
Proof.
  unfold wf_check. rewrite !andb_true_iff.
  intros (((((Hs & Hm) & Hc) & Hl) & He) & Hn).
  split; [|split; [|split; [split|split]]].
  - rewrite forallb_forall in Hs. apply Forall_forall. intros [k h] Hin.
    apply list_elem_of_In, Hs in Hin. unfold registered_check in Hin.
    unfold registered_ok. simpl in *.
    destruct h; apply String.eqb_eq in Hin; done.
  - rewrite forallb_forall in Hm. apply Forall_forall. intros m Hin.
    by apply absent_None, Hm, list_elem_of_In.
  - by apply holds_arrow_Some.
  - by apply holds_arrow_Some.
  - by apply absent_None.
  - by apply absent_None.
Qed.

(** ** The no-op rule of [_set] *)

Lemma strict_eq_eq a b : strict_eq a b = true → a = b.
Proof.
  destruct a, b; simpl; try done; intros H.
  - by apply Bool.eqb_prop in H as ->.
  - by apply Z.eqb_eq in H as ->.
  - by apply String.eqb_eq in H as ->.
  - by apply Nat.eqb_eq in H as ->.
  - by apply Nat.eqb_eq in H as ->.
  - by apply String.eqb_eq in H as ->.
  - by apply String.eqb_eq in H as ->.
Qed.

Lemma backing_inj a b : backing a = backing b → a = b.
Proof. unfold backing. intros [= H]. exact H. Qed.

Lemma field_write k v c : field k (with_fields (<[k := v]> (fields c)) c) = v.
Proof. unfold field. simpl. by rewrite lookup_insert_eq. Qed.

Lemma _set_unchanged d name v c :
  fields c !! "_set" = None →
  strict_eq (field (backing name) c) v = true →
  _set d name v c = Some (Returned c).
Proof. intros Hm H. unfold _set. rewrite send_method by done. by rewrite H. Qed.

Lemma _set_undefined_null d name c :
  fields c !! "_set" = None →
  field (backing name) c = VUndef → _set d name VNull c = Some (Returned c).
Proof. intros Hm H. unfold _set. rewrite send_method by done. by rewrite H. Qed.

Lemma changed_test cur v :
  strict_eq cur v = false → cur ≠ VUndef ∨ v ≠ VNull →
  negb (strict_eq cur v) && (negb (is_undefined cur) || negb (is_null v)) = true.
Proof.
  intros -> [H|H]; simpl.
  - destruct cur; simpl; congruence.
  - destruct v; simpl; try congruence; apply orb_true_r.
Qed.

(** The component right after the assignment of [_set] can emit. *)
Lemma written_can_emit name v c :
  wf c → name ≠ "emitChange" → backing name ≠ "_events" →
  can_emit name (with_fields (<[backing name := v]> (fields c)) c).
Proof.
  intros Hwf Hn Hne. pose proof Hwf as (Hs & Hm & [Hc Hl] & He & _).
  split; [done|]. simpl. split; [by rewrite lookup_insert_ne|]. split.
  - rewrite lookup_insert_ne; [apply (intact_method "_emitChange" c)|].
    + apply Hwf.
    + simpl. tauto.
    + intros H. by apply (backing_inj name "emitChange") in H.
  - intros Hmile. unfold arrows_held. simpl.
    unfold milestone_of in Hmile.
    destruct (String.eqb name "create") eqn:E1.
    { apply String.eqb_eq in E1 as ->. by rewrite !lookup_insert_ne. }
    destruct (String.eqb name "load") eqn:E2; [|done].
    apply String.eqb_eq in E2 as ->. by rewrite !lookup_insert_ne.
Qed.

Lemma unhandled_dec e c : unhandled e c ∨ ¬ unhandled e c.
Proof.
  unfold unhandled. destruct (decide (e = "error")) as [->|Hne].
  - destruct (handlers_of "error" (subs c)); [by left|right; by intros [_ ?]].
  - right. by intros [? _].
Qed.

Lemma _set_changed d name v c :
  wf c → name ≠ "emitChange" → backing name ≠ "_events" →
  backing name ≠ "__proto__" →
  strict_eq (field (backing name) c) v = false →
  field (backing name) c ≠ VUndef ∨ v ≠ VNull →
  stored_and_emitted (S (S d)) name v c.
Proof.
  intros Hwf Hn Hne Hp Hneq Hor. unfold stored_and_emitted, _set.
  rewrite send_wf by (done || (simpl; tauto)).
  rewrite changed_test by done.
  apply String.eqb_neq in Hp. rewrite Hp.
  pose proof (written_can_emit name v c Hwf Hn Hne) as Hcan.
  set (c0 := with_fields _ c) in *.
  destruct (unhandled_dec name c) as [Hu|Hu].
  - pose proof Hcan as (_ & He & Hc & _).
    rewrite _emitChange_unhandled by done.
    eexists _, []. split; [reflexivity|]. simpl.
    split; [done|]. split; [done|]. split; [done|]. done.
  - destruct (_emitChange_total d name v c0 Hcan Hu) as [c' E].
    rewrite E. apply _emitChange_grows in E as G. simpl in G.
    apply _emitChange_trace in E as (es & Ht & Hin).
    exists (Returned c'), es. split; [done|]. simpl.
    split; [by rewrite (grows_fields _ _ G)|]. split; [done|].
    split; [done|]. done.
Qed.

(** The method [_emitChange] is looked up after the assignment: for the
    name ['emitChange'] the assignment has put the value in front of it. *)
Lemma _set_emitChange d v c :
  wf c → (∀ f, v ≠ VFun f) →
  _set d "emitChange" v c
  = Some (Threw TypeError (with_fields (<["_emitChange" := v]> (fields c)) c)).
Proof.
  intros Hwf Hv. unfold _set. rewrite send_wf by (done || (simpl; tauto)).
  assert (field (backing "emitChange") c = VFun "_emitChange") as ->.
  { unfold field. change (backing "emitChange") with "_emitChange".
    rewrite (intact_method "_emitChange" c); [done|apply Hwf|simpl; tauto]. }
  assert (strict_eq (VFun "_emitChange") v = false) as ->.
  { destruct v; try done. by destruct (Hv f). }
  simpl. unfold _emitChange, send. simpl. rewrite lookup_insert_eq.
  destruct v; try done. by destruct (Hv f).
Qed.

(** With [_emitChange] overwritten no event is emitted. *)
Lemma set_emitChange_fails :
  wf wired
  ∧ _set 2 "emitChange" (VNum 1) wired
    = Some (Threw TypeError
              (with_fields (<["_emitChange" := VNum 1]> (fields wired)) wired))
  ∧ ¬ emits_when_changed 2 "emitChange" (VNum 1) wired.
Proof.
  assert (wf wired) as Hwf by (apply wf_check_wf; vm_compute; reflexivity).
  assert (_set 2 "emitChange" (VNum 1) wired
          = Some (Threw TypeError
                    (with_fields (<["_emitChange" := VNum 1]> (fields wired)) wired)))
    as E by (by apply _set_emitChange).
  split; [done|]. split; [done|].
  intros H. destruct H as (r & es & Hr & _ & Ht).
  - vm_compute. reflexivity.
  - right. discriminate.
  - rewrite E in Hr. injection Hr as <-. simpl in Ht. discriminate Ht.
Qed.

(** C1, amended.  [_set(name, value)] emits nothing when the stored value
    is identical to the new one, and nothing when an [undefined] property
    is set to [null].  For a name other than ['emitChange'], ['events']
    and ['_proto__'], a defined property set to [null], and every other
    changed value, is stored and [emit(name, value)] is called; the call
    returns with ['$change'] emitted after it, unless the name is
    ['error'] and no listener of ['error'] is subscribed: then the emitter
    throws and ['$change'] is not emitted.  For the name ['emitChange'] a
    changed value that is no function is stored and the call is a
    [TypeError] with nothing emitted. *)
Theorem set_noop_rule (d : nat) (name : string) (v : value) (c : comp) :
  wf c →
  (strict_eq (field (backing name) c) v = true →
     _set (S (S d)) name v c = Some (Returned c))
  ∧ (field (backing name) c = VUndef → v = VNull →
     _set (S (S d)) name v c = Some (Returned c))
  ∧ (name ≠ "emitChange" → backing name ≠ "_events" →
     backing name ≠ "__proto__" →
     (field (backing name) c ≠ VUndef → field (backing name) c ≠ VNull →
      v = VNull → stored_and_emitted (S (S d)) name VNull c)
     ∧ (strict_eq (field (backing name) c) v = false →
        field (backing name) c ≠ VUndef ∨ v ≠ VNull →
        stored_and_emitted (S (S d)) name v c))
  ∧ (name = "emitChange" → (∀ f, v ≠ VFun f) →
     _set (S (S d)) name v c
     = Some (Threw TypeError
               (with_fields (<[backing name := v]> (fields c)) c))).
Proof.
  intros Hwf.
  assert (fields c !! "_set" = None) as Hset.
  { apply intact_method; [apply Hwf|simpl; tauto]. }
  split; [by apply _set_unchanged|].
  split; [intros H ->; by apply _set_undefined_null|].
  split.
  - intros Hn He Hp. split.
    + intros Hu Hnull ->. apply _set_changed; try done; [|by left].
      destruct (field (backing name) c); simpl; congruence.
    + by apply _set_changed.
  - intros -> Hv. by apply _set_emitChange.
Qed.

Lemma set_noop_rule_witness :
  wf named_x
  ∧ _set 2 "name" (VStr "x") named_x = Some (Returned named_x)
  ∧ _set 2 "passed" VNull named_x = Some (Returned named_x)
  ∧ stored_and_emitted 2 "name" VNull named_x
  ∧ stored_and_emitted 2 "get" VNull named_x
  ∧ stored_and_emitted 2 "error" (VStr "y") named_x
  ∧ _set 2 "emitChange" VNull named_x
    = Some (Threw TypeError
              (with_fields (<[backing "emitChange" := VNull]> (fields named_x))
                 named_x)).
Proof.
  assert (wf named_x) as Hwf by (apply wf_check_wf; vm_compute; reflexivity).
  split; [exact Hwf|].
  split.
  { apply (proj1 (set_noop_rule 0 "name" (VStr "x") named_x Hwf)).
    vm_compute. reflexivity. }
  split.
  { apply (proj1 (proj2 (set_noop_rule 0 "passed" VNull named_x Hwf)));
      vm_compute; reflexivity. }
  split.
  { apply (proj1 (proj1 (proj2 (proj2 (set_noop_rule 0 "name" VNull named_x Hwf)))
                    ltac:(discriminate) ltac:(discriminate) ltac:(discriminate)));
      [vm_compute; discriminate | vm_compute; discriminate | reflexivity]. }
  split.
  { apply (proj1 (proj1 (proj2 (proj2 (set_noop_rule 0 "get" VNull named_x Hwf)))
                    ltac:(discriminate) ltac:(discriminate) ltac:(discriminate)));
      [vm_compute; discriminate | vm_compute; discriminate | reflexivity]. }
  split.
  { apply (proj2 (proj1 (proj2 (proj2 (set_noop_rule 0 "error" (VStr "y") named_x Hwf)))
                    ltac:(discriminate) ltac:(discriminate) ltac:(discriminate)));
      [vm_compute; reflexivity | right; discriminate]. }
  apply (proj2 (proj2 (proj2 (set_noop_rule 0 "emitChange" VNull named_x Hwf))));
    [reflexivity | discriminate].
Defined.

(** ** What the setters can change *)

Lemma _set_inv d name v c r :
  _set d name v c = Some r →
  grows c (state_of r)
  ∨ grows (with_fields (<[backing name := v]> (fields c)) c) (state_of r).
Proof.
  unfold _set. intros H. apply send_Some in H as [H| ->]; [|left; apply grows_refl].
  destruct (_ && _).
  - destruct (String.eqb _ _); [done|]. right. by eapply _emitChange_grows.
  - injection H as <-. left. apply grows_refl.
Qed.

Lemma _set_keeps d name v c r :
  _set d name v c = Some r → keeps [backing name] c (state_of r).
Proof.
  intros H. apply _set_inv in H as [G|G]; [by apply grows_keeps|].
  destruct G as [Hf Hh Hs _ _ Ho]. simpl in *. split; try done.
  - intros k Hk. rewrite Hf, lookup_insert_ne; [done|]. intros <-. apply Hk. by left.
  - by rewrite Hs.
Qed.

Lemma _set_subs d name v c r : _set d name v c = Some r → subs (state_of r) = subs c.
Proof. intros H. by destruct (_set_inv _ _ _ _ _ H) as [G|G]; rewrite (grows_subs _ _ G). Qed.

(** A write outside the members the class calls leaves the component
    well formed. *)
Lemma wf_write k v c :
  wf c → ¬ In k guarded_keys → wf (with_fields (<[k := v]> (fields c)) c).
Proof.
  intros Hwf Hk. apply (keeps_wf [k] c); [|by intros k' [<-|[]]|done].
  split; simpl; try done. intros k' Hk'. rewrite lookup_insert_ne; [done|].
  intros <-. apply Hk'. by left.
Qed.

Lemma _set_total d name v c :
  wf c → ¬ In (backing name) guarded_keys → backing name ≠ "__proto__" →
  name ≠ "error" →
  ∃ c', _set (S (S d)) name v c = Some (Returned c') ∧ wf c'.
Proof.
  intros Hwf Hk Hp Hne. unfold _set. rewrite send_wf by (done || (simpl; tauto)).
  destruct (_ && _); [|by exists c].
  apply String.eqb_neq in Hp. rewrite Hp.
  pose proof (wf_write (backing name) v c Hwf Hk) as Hwf0.
  destruct (_emitChange_total d name v _ (wf_can_emit name _ Hwf0)) as [c' E].
  { by intros [? _]. }
  exists c'. split; [done|]. apply _emitChange_grows in E. by eapply wf_grows.
Qed.

(** After [_set(name, v)] with [v] not [undefined], [_get(name)] reads [v],
    except that an [undefined] property set to [null] stays [undefined]
    and reads as [null] all the same. *)
Lemma _set_get d name v c c' :
  _set d name v c = Some (Returned c') → v ≠ VUndef → _get name c' = v.
Proof.
  intros H Hv. unfold _set in H. apply send_Returned in H. unfold _get.
  destruct (strict_eq (field (backing name) c) v) eqn:Eq; simpl in H.
  - injection H as <-. apply strict_eq_eq in Eq as ->. by destruct v.
  - destruct (negb (is_undefined (field (backing name) c)) || negb (is_null v)) eqn:E2;
      simpl in H.
    + destruct (String.eqb _ _); [done|].
      apply _emitChange_grows in H. simpl in H.
      rewrite (grows_field _ _ (backing name) H), field_write. by destruct v.
    + injection H as <-. apply orb_false_elim in E2 as [E2 E3].
      destruct (field (backing name) c); simpl in E2; try done.
      by destruct v.
Qed.

Lemma _setIfUndefinedProp_inv d v name c r :
  _setIfUndefinedProp d v name c = Some r →
  grows c (state_of r)
  ∨ grows (with_fields (<[backing name := v]> (fields c)) c) (state_of r).
Proof.
  unfold _setIfUndefinedProp. intros H.
  apply send_Some in H as [H| ->]; [|left; apply grows_refl].
  destruct (negb _); [by apply _set_inv in H|].
  injection H as <-. left. apply grows_refl.
Qed.

Lemma _setIfUndefinedProp_keeps d v name c r :
  _setIfUndefinedProp d v name c = Some r → keeps [backing name] c (state_of r).
Proof.
  unfold _setIfUndefinedProp. apply send_keeps. intros r1.
  destruct (negb _); [apply _set_keeps|]. intros [= <-]. apply keeps_refl.
Qed.

Lemma _setIfUndefinedProp_subs d v name c r :
  _setIfUndefinedProp d v name c = Some r → subs (state_of r) = subs c.
Proof.
  intros H.
  by destruct (_setIfUndefinedProp_inv _ _ _ _ _ H) as [G|G]; rewrite (grows_subs _ _ G).
Qed.

Lemma _setIfUndefinedProp_total d v name c :
  wf c → ¬ In (backing name) guarded_keys → backing name ≠ "__proto__" →
  name ≠ "error" →
  ∃ c', _setIfUndefinedProp (S (S d)) v name c = Some (Returned c') ∧ wf c'.
Proof.
  intros Hwf Hk Hp Hne. unfold _setIfUndefinedProp.
  rewrite send_wf by (done || (simpl; tauto)).
  destruct (negb _); [by apply _set_total|by exists c].
Qed.

Lemma _setName_keeps d p c r :
  _setName d p c = Some r → keeps ["_name"] c (state_of r).
Proof. apply send_keeps. intros r1. apply (_setIfUndefinedProp_keeps _ _ "name"). Qed.

Lemma _setPassed_keeps d p c r :
  _setPassed d p c = Some r → keeps ["_passed"] c (state_of r).
Proof. apply send_keeps. intros r1. apply (_setIfUndefinedProp_keeps _ _ "passed"). Qed.

Lemma _setName_subs d p c r : _setName d p c = Some r → subs (state_of r) = subs c.
Proof.
  intros H. apply send_Some in H as [H| ->]; [|done].
  by apply _setIfUndefinedProp_subs in H.
Qed.

Lemma _setPassed_subs d p c r : _setPassed d p c = Some r → subs (state_of r) = subs c.
Proof.
  intros H. apply send_Some in H as [H| ->]; [|done].
  by apply _setIfUndefinedProp_subs in H.
Qed.

Lemma _setName_total d p c :
  wf c → ∃ c', _setName (S (S d)) p c = Some (Returned c') ∧ wf c'.
Proof.
  intros Hwf. unfold _setName. rewrite send_wf by (done || (simpl; tauto)).
  apply _setIfUndefinedProp_total; try done; ordinary.
Qed.

Lemma _setPassed_total d p c :
  wf c → ∃ c', _setPassed (S (S d)) p c = Some (Returned c') ∧ wf c'.
Proof.
  intros Hwf. unfold _setPassed. rewrite send_wf by (done || (simpl; tauto)).
  apply _setIfUndefinedProp_total; try done; ordinary.
Qed.

(** ** The wiring of [_setListeners] *)

Lemma subscribe_all_keeps K d ifd items c r :
  subscribe_all d ifd items c = Some r → keeps K c (state_of r).
Proof.
  revert c r. induction items as [|[l|] items IH]; simpl; intros c r.
  - intros [= <-]. apply keeps_refl.
  - apply andthen_keeps; [|intros c1 r2; apply IH].
    intros r1. by apply on_keeps.
  - intros [= <-]. apply keeps_refl.
Qed.

Lemma subscribe_all_subs d ifd ls c c' :
  subscribe_all d ifd (map ItemListener ls) c = Some (Returned c') →
  subs c' = subs c ++ map (λ l, (l_event l, HChain l ifd)) ls.
Proof.
  revert c. induction ls as [|l ls IH]; simpl; intros c.
  - intros [= <-]. by rewrite app_nil_r.
  - intros H. apply andthen_Returned in H as (c1 & H1 & H).
    apply on_Returned in H1 as (c0 & G & ->).
    rewrite (IH _ H). simpl. by rewrite <- app_assoc.
Qed.

Lemma wf_on e h c c1 :
  wf c → grows c c1 → registered_ok (e, h) →
  wf (with_subs (subs c ++ [(e, h)]) c1).
Proof.
  intros Hwf G Hr. pose proof (wf_grows _ _ G Hwf) as [Hs Hi].
  split; [|done]. simpl. apply Forall_app. split; [apply Hwf|by constructor].
Qed.

Lemma on_wf_total d e h c :
  wf c → registered_ok (e, h) →
  ∃ c', on (S d) e h c = Some (Returned c') ∧ wf c'
        ∧ subs c' = subs c ++ [(e, h)].
Proof.
  intros Hwf Hr. destruct (on_total d e h c Hwf) as (c1 & G & E).
  eexists. split; [exact E|]. split; [by apply wf_on|done].
Qed.

Lemma subscribe_all_total d ifd ls c :
  wf c →
  ∃ c', subscribe_all (S d) ifd (map ItemListener ls) c = Some (Returned c')
        ∧ wf c'.
Proof.
  revert c. induction ls as [|l ls IH]; simpl; intros c Hwf; [by exists c|].
  destruct (on_wf_total d (l_event l) (HChain l ifd) c Hwf) as (c1 & E & Hwf1 & _);
    [done|].
  rewrite E. simpl. by apply IH.
Qed.

Lemma removeListener_wf_total d e p h c :
  wf c →
  ∃ c', removeListener (S d) e p h c = Some (Returned c') ∧ wf c'
        ∧ subs c' = rev (remove_first e p (rev (subs c))).
Proof.
  intros Hwf. destruct (removeListener_total d e p h c Hwf) as (c' & E & G).
  exists c'. split; [done|]. split; [|by rewrite (grows_subs _ _ G)].
  apply (wf_grows _ _ G). destruct Hwf as [Hs Hi]. split; [|done]. simpl.
  by apply Forall_rev, remove_first_ok, Forall_rev.
Qed.

Lemma removeListener_subs d e p h c c' :
  removeListener d e p h c = Some (Returned c') →
  subs c' = rev (remove_first e p (rev (subs c))).
Proof.
  intros H. apply removeListener_Some in H. simpl in H.
  by rewrite (grows_subs _ _ H).
Qed.

Lemma on_subs d e h c c' :
  on d e h c = Some (Returned c') → subs c' = subs c ++ [(e, h)].
Proof. intros H. by apply on_Returned in H as (c1 & _ & ->). Qed.

(** The own fields [_setListeners] writes. *)
Lemma _setListeners_writes d p la c r :
  _setListeners d p la c = Some r →
  keeps (match la with NoListeners => [] | _ => ["_listeners"] end) c (state_of r).
Proof.
  unfold _setListeners. apply send_keeps. intros r0. cbn zeta. cbn [negb].
  apply andthen_keeps.
  { intros r1. apply with_arrow_keeps. intros r2. apply removeListener_keeps. }
  intros c1 r1. apply andthen_keeps.
  { intros r2. apply with_arrow_keeps. intros r3. apply removeListener_keeps. }
  intros c2 r2. apply andthen_keeps.
  { intros r3. destruct la as [|ref items|s].
    - intros [= <-]. apply keeps_refl.
    - apply andthen_keeps.
      + intros r4. apply (_setIfUndefinedProp_keeps _ _ "listeners").
      + intros c3 r4. apply subscribe_all_keeps.
    - apply andthen_keeps.
      + intros r4. apply (_setIfUndefinedProp_keeps _ _ "listeners").
      + intros c3 r4 [= <-]. apply keeps_refl. }
  intros c3 r3. apply andthen_keeps.
  { intros r4. apply with_arrow_keeps. intros r5. by apply on_keeps. }
  intros c4 r4. apply with_arrow_keeps. intros r5. by apply on_keeps.
Qed.

Lemma _setListeners_keeps d p la c r :
  _setListeners d p la c = Some r → keeps ["_listeners"] c (state_of r).
Proof.
  intros H. apply _setListeners_writes in H.
  eapply keeps_mono; [|exact H]. intros k. by destruct la.
Qed.

(** A [_setListeners] that returns has subscribed both default
    emitters. *)
Lemma _setListeners_wired d p la c c' :
  _setListeners d p la c = Some (Returned c') →
  In ("create", HEmitCreated) (subs c') ∧ In ("load", HEmitLoaded) (subs c').
Proof.
  unfold _setListeners. intros H. apply send_Returned in H.
  cbn zeta in H. cbn [negb] in H.
  apply andthen_Returned in H as (c1 & _ & H).
  apply andthen_Returned in H as (c2 & _ & H).
  apply andthen_Returned in H as (c3 & _ & H).
  apply andthen_Returned in H as (c4 & H4 & H).
  apply with_arrow_Returned, on_subs in H4.
  apply with_arrow_Returned, on_subs in H.
  rewrite H, H4. split.
  - apply in_or_app. left. apply in_or_app. right. by left.
  - apply in_or_app. right. by left.
Qed.

Lemma _setListeners_subs d p c c' :
  _setListeners d p (listeners_of p) c = Some (Returned c') →
  subs c' = rewired p (subs c).
Proof.
  unfold _setListeners. intros H. apply send_Returned in H.
  cbn zeta in H. cbn [negb] in H.
  apply andthen_Returned in H as (c1 & H1 & H).
  apply andthen_Returned in H as (c2 & H2 & H).
  apply andthen_Returned in H as (c3 & H3 & H).
  apply andthen_Returned in H as (c4 & H4 & H).
  apply with_arrow_Returned, removeListener_subs in H1.
  apply with_arrow_Returned, removeListener_subs in H2.
  apply with_arrow_Returned, on_subs in H4.
  apply with_arrow_Returned, on_subs in H.
  assert (subs c3 = subs c2 ++ declared p) as H3'.
  { unfold listeners_of, declared in *.
    destruct (p_listeners p) as [[r ls]|].
    - apply andthen_Returned in H3 as (c0 & E & H3).
      apply subscribe_all_subs in H3. rewrite H3.
      apply _setIfUndefinedProp_subs in E. simpl in E. by rewrite E.
    - injection H3 as <-. by rewrite app_nil_r. }
  rewrite H, H4, H3', H2, H1. unfold rewired, defaults_removed.
  by rewrite <- !app_assoc.
Qed.

Lemma _setListeners_total d p c :
  wf c →
  ∃ c', _setListeners (S (S d)) p (listeners_of p) c = Some (Returned c') ∧ wf c'.
Proof.
  intros Hwf. unfold _setListeners. rewrite send_wf by (done || (simpl; tauto)).
  cbn zeta. cbn [negb].
  rewrite with_arrow_created by done.
  destruct (removeListener_wf_total (S d) "create" is_created_factory HEmitCreated c Hwf)
    as (c1 & E1 & Hwf1 & _).
  rewrite E1. cbn [andthen].
  rewrite with_arrow_loaded by done.
  destruct (removeListener_wf_total (S d) "load" is_loaded_factory HEmitLoaded c1 Hwf1)
    as (c2 & E2 & Hwf2 & _).
  rewrite E2. cbn [andthen].
  assert (∃ c3, match listeners_of p with
                | NoListeners => Some (Returned c2)
                | ListenerArray r items =>
                    andthen (_setIfUndefinedProp (S (S d)) (VObj r) "listeners" c2)
                      (subscribe_all (S (S d)) (p_passed p) items)
                | Scalar s =>
                    andthen (_setIfUndefinedProp (S (S d)) (scalar_value s)
                               "listeners" c2)
                      (λ c', Some (Threw TypeError c'))
                end = Some (Returned c3) ∧ wf c3) as (c3 & E3 & Hwf3).
  { unfold listeners_of. destruct (p_listeners p) as [[r ls]|]; [|by exists c2].
    destruct (_setIfUndefinedProp_total d (VObj r) "listeners" c2 Hwf2)
      as (c' & E & Hwf'); [ordinary..|].
    rewrite E. cbn [andthen]. by apply subscribe_all_total. }
  rewrite E3. cbn [andthen].
  rewrite with_arrow_created by done.
  destruct (on_wf_total (S d) "create" HEmitCreated c3 Hwf3) as (c4 & E4 & Hwf4 & _);
    [done|].
  rewrite E4. cbn [andthen].
  rewrite with_arrow_loaded by done.
  destruct (on_wf_total (S d) "load" HEmitLoaded c4 Hwf4) as (c5 & E5 & Hwf5 & _);
    [done|].
  exists c5. by rewrite E5.
Qed.

(** ** [_push] *)

Lemma _push_inv d name v c r :
  _push d name v c = Some r →
  r = Threw TypeError c
  ∨ ∃ ref,
      _set d name (VArr ref)
        (with_heap (<[ref := contents name c ++ [v]]> (heap c)) c) = Some r
      ∧ (_get name c = VArr ref ∨ ref = fresh (dom (heap c))).
Proof.
  unfold _push. intros H.
  apply send_Some in H as [H| ->]; [|by left].
  apply send_Some in H as [H| ->]; [|by left].
  right. unfold contents.
  destruct (_get name c); eauto.
Qed.

Lemma _push_keeps d name v c r :
  _push d name v c = Some r → ∃ h, keeps [backing name] (with_heap h c) (state_of r).
Proof.
  intros H. apply _push_inv in H as [->|(ref & H & _)].
  - exists (heap c). destruct c. apply keeps_refl.
  - eexists. by apply _set_keeps in H.
Qed.


Lemma _push_subs d name v c r : _push d name v c = Some r → subs (state_of r) = subs c.
Proof.
  intros H. apply _push_inv in H as [->|(ref & H & _)]; [done|].
  by apply _set_subs in H.
Qed.

Lemma wf_with_heap h c : wf c → wf (with_heap h c).
Proof. by intros [Hs Hi]. Qed.

Lemma _push_total d name v c :
  wf c → ¬ In (backing name) guarded_keys → backing name ≠ "__proto__" →
  name ≠ "error" →
  ∃ c', _push (S (S d)) name v c = Some (Returned c') ∧ wf c'.
Proof.
  intros Hwf Hk Hp Hne. unfold _push. rewrite !send_wf by (done || (simpl; tauto)).
  by apply _set_total.
Qed.

(** ** [set] step by step *)

Lemma mapping_of_props a p :
  props_of a = Some p → mapping_of a = Some (p, listeners_of p).
Proof. destruct a; simpl; try done; by intros [= <-]. Qed.

Lemma set_Returned d a c c' :
  set d a c = Some (Returned c') →
  ∃ p la c1 c2 c3,
    typeof_object a = true ∧ mapping_of a = Some (p, la)
    ∧ _setName d p c = Some (Returned c1)
    ∧ _setListeners d p la c1 = Some (Returned c2)
    ∧ _setPassed d p c2 = Some (Returned c3)
    ∧ push_schema d p c3 = Some (Returned c').
Proof.
  unfold set. destruct (typeof_object a); [|done]. simpl.
  destruct (mapping_of a) as [[p la]|].
  - intros H.
    apply andthen_Returned in H as (c1 & H1 & H).
    apply andthen_Returned in H as (c2 & H2 & H).
    apply andthen_Returned in H as (c3 & H3 & H).
    by exists p, la, c1, c2, c3.
  - intros H. apply send_Returned, send_Returned in H. done.
Qed.

Lemma keeps_with_heap K h c c' :
  keeps K c c' → keeps K (with_heap h c) (with_heap h c').
Proof. intros [Ho Hh Hf Hk]. by split. Qed.

Lemma with_heap_same c : with_heap (heap c) c = c.
Proof. by destruct c. Qed.

Lemma keeps_any_heap K c c' : keeps K c c' → ∃ h, keeps K (with_heap h c) c'.
Proof. intros H. exists (heap c). by rewrite with_heap_same. Qed.

Lemma push_schema_keeps d p c r :
  push_schema d p c = Some r → ∃ h, keeps ["_schema"] (with_heap h c) (state_of r).
Proof.
  unfold push_schema. destruct (negb _); [apply (_push_keeps _ "schema")|].
  intros [= <-]. apply keeps_any_heap, keeps_refl.
Qed.

Lemma push_schema_subs d p c r :
  push_schema d p c = Some r → subs (state_of r) = subs c.
Proof.
  unfold push_schema. destruct (negb _); [apply _push_subs|by intros [= <-]].
Qed.

(** [set] writes the backing fields of the four recognized names only,
    and allocates or extends the array of [schema]. *)
Lemma set_keeps d a c r :
  set d a c = Some r → ∃ h, keeps written_by_set (with_heap h c) (state_of r).
Proof.
  unfold set. destruct (typeof_object a); simpl.
  2:{ intros [= <-]. apply keeps_any_heap, keeps_refl. }
  destruct (mapping_of a) as [[p la]|].
  2:{ intros H. apply keeps_any_heap.
      apply send_Some in H as [H| ->]; [|apply keeps_refl].
      apply send_Some in H as [H| ->]; [|apply keeps_refl].
      injection H as <-. apply keeps_refl. }
  intros H.
  apply andthen_Some in H as [(c1 & H1 & H)|(e & c1 & H1 & ->)].
  2:{ apply keeps_any_heap. apply _setName_keeps in H1.
      eapply keeps_mono; [|exact H1]. in_written. }
  apply _setName_keeps in H1. simpl in H1.
  apply andthen_Some in H as [(c2 & H2 & H)|(e & c2 & H2 & ->)].
  2:{ apply keeps_any_heap. apply _setListeners_keeps in H2.
      eapply keeps_trans; (eapply keeps_mono; [|eassumption]); in_written. }
  apply _setListeners_keeps in H2. simpl in H2.
  apply andthen_Some in H as [(c3 & H3 & H)|(e & c3 & H3 & ->)].
  2:{ apply keeps_any_heap. apply _setPassed_keeps in H3.
      eapply keeps_trans; [eapply keeps_trans|];
        (eapply keeps_mono; [|eassumption]); in_written. }
  apply _setPassed_keeps in H3. simpl in H3.
  fold (push_schema d p c3) in H. apply push_schema_keeps in H as [h H].
  exists h. eapply keeps_trans; [|eapply keeps_mono; [|exact H]; in_written].
  apply keeps_with_heap.
  eapply keeps_trans; [eapply keeps_trans|];
    (eapply keeps_mono; [|eassumption]); in_written.
Qed.

Lemma written_not_guarded k : In k written_by_set → ¬ In k guarded_keys.
Proof. intros H Hg. simpl in H, Hg. intuition; subst; discriminate. Qed.

Lemma set_wf d a c r : set d a c = Some r → wf c → wf (state_of r).
Proof.
  intros H Hwf. apply set_keeps in H as [h H].
  apply (keeps_wf _ _ _ H); [apply written_not_guarded|by apply wf_with_heap].
Qed.

(** No setter rebinds the arrows. *)
Lemma set_own d a c r : set d a c = Some r → own_arrows (state_of r) = own_arrows c.
Proof. intros H. apply set_keeps in H as [h H]. by rewrite (keeps_own _ _ _ H). Qed.

Lemma set_other_fields d a c r k :
  set d a c = Some r → ¬ In k written_by_set →
  fields (state_of r) !! k = fields c !! k.
Proof. intros H Hk. apply set_keeps in H as [h H]. by rewrite (keeps_fields _ _ _ H). Qed.

(** The subscriptions a returning [set(props)] leaves. *)
Lemma set_subs d a c c' p :
  set d a c = Some (Returned c') → props_of a = Some p →
  subs c' = rewired p (subs c).
Proof.
  intros H Hp. apply set_Returned in H
    as (p' & la & c1 & c2 & c3 & _ & Hm & H1 & H2 & H3 & H4).
  rewrite (mapping_of_props _ _ Hp) in Hm. injection Hm as <- <-.
  apply push_schema_subs in H4. apply _setPassed_subs in H3.
  apply _setListeners_subs in H2. apply _setName_subs in H1. simpl in *.
  by rewrite H4, H3, H2, H1.
Qed.

Lemma push_schema_total d p c :
  wf c → ∃ c', push_schema (S (S d)) p c = Some (Returned c') ∧ wf c'.
Proof.
  intros Hwf. unfold push_schema. destruct (negb _); [|by exists c].
  apply _push_total; try done; ordinary.
Qed.

(** On a well-formed component [set] returns for every mapping whose
    [listeners] is an array of listeners. *)
Lemma set_total d a c p :
  wf c → typeof_object a = true → props_of a = Some p →
  ∃ c', set (S (S d)) a c = Some (Returned c') ∧ wf c'.
Proof.
  intros Hwf Ht Hp. unfold set. rewrite Ht, (mapping_of_props _ _ Hp). simpl.
  destruct (_setName_total d p c Hwf) as (c1 & E1 & Hwf1). rewrite E1. cbn [andthen].
  destruct (_setListeners_total d p c1 Hwf1) as (c2 & E2 & Hwf2).
  rewrite E2. cbn [andthen].
  destruct (_setPassed_total d p c2 Hwf2) as (c3 & E3 & Hwf3). rewrite E3. cbn [andthen].
  apply (push_schema_total d p c3 Hwf3).
Qed.

(** ** Who is subscribed after [set] *)

Lemma handlers_of_In e h s : In h (handlers_of e s) ↔ In (e, h) s.
Proof.
  induction s as [|[k h'] s IH]; simpl; [done|].
  destruct (String.eqb k e) eqn:E.
  - apply String.eqb_eq in E as ->. simpl. rewrite IH. split.
    + intros [->|?]; auto.
    + intros [[= ->]|?]; auto.
  - apply String.eqb_neq in E. rewrite IH. split; [auto|].
    by intros [[= ? ?]|?].
Qed.




Lemma defaults_removed_ok s :
  Forall registered_ok s → Forall registered_ok (defaults_removed s).
Proof.
  intros H. unfold defaults_removed.
  by apply Forall_rev, remove_first_ok, Forall_rev, Forall_rev, remove_first_ok,
    Forall_rev.
Qed.





(** A [set] that returns leaves both default emitters subscribed. *)
Lemma set_returned_wired d a c c' :
  wf c → own_arrows c = true → set d a c = Some (Returned c') → default_wired c'.
Proof.
  intros Hwf Hown H.
  split; [apply (set_wf _ _ _ _ H Hwf)|].
  split; [by rewrite <- Hown, <- (set_own _ _ _ _ H)|].
  apply set_Returned in H as (p & la & c1 & c2 & c3 & _ & _ & _ & H2 & H3 & H4).
  apply push_schema_subs in H4. apply _setPassed_subs in H3. simpl in *.
  rewrite H4, H3. by apply _setListeners_wired in H2.
Qed.

(** ** Rewiring keeps the closures of earlier [set] calls *)

Lemma chain_count_app e s1 s2 :
  chain_count e (s1 ++ s2) = chain_count e s1 + chain_count e s2.
Proof. unfold chain_count. by rewrite List.filter_app, length_app. Qed.

Lemma chain_count_rev e s : chain_count e (rev s) = chain_count e s.
Proof.
  unfold chain_count. induction s as [|q s IH]; simpl; [done|].
  rewrite List.filter_app, length_app, IH. simpl.
  destruct (_ && _); simpl; lia.
Qed.

Lemma chain_count_remove_first e e' q s :
  (∀ h, q h = true → is_chain h = false) →
  chain_count e (remove_first e' q s) = chain_count e s.
Proof.
  intros Hq. unfold chain_count.
  induction s as [|[k h] s IH]; simpl; [done|].
  destruct (String.eqb k e' && q h) eqn:E.
  - apply andb_true_iff in E as [_ E]. rewrite (Hq _ E), andb_false_r. done.
  - simpl. destruct (String.eqb k e && is_chain h); simpl; congruence.
Qed.

Lemma chain_count_defaults_removed e s :
  chain_count e (defaults_removed s) = chain_count e s.
Proof.
  unfold defaults_removed.
  rewrite chain_count_rev, chain_count_remove_first, !chain_count_rev,
    chain_count_remove_first, chain_count_rev; [done| |]; by intros [].
Qed.

Lemma chain_count_declared e ifd ls :
  chain_count e (map (λ l, (l_event l, HChain l ifd)) ls) = declared_count e ls.
Proof.
  unfold chain_count, declared_count.
  induction ls as [|l ls IH]; simpl; [done|].
  rewrite andb_true_r. destruct (String.eqb (l_event l) e); simpl; by rewrite IH.
Qed.

(** A [set] call that supplies an array of listeners removes one instance
    of each default emitter, keeps every other subscription, appends one
    closure per declared listener in order, and appends the two default
    emitters: under every event the closures of earlier calls remain and
    those of this call are added to them. *)
Lemma set_listeners_appends (d : nat) (a : jsarg) (p : props) (r : nat)
    (ls : list listener) (c : comp) :
  wf c →
  typeof_object a = true →
  props_of a = Some p →
  p_listeners p = Some (r, ls) →
  ∃ c', set (S (S d)) a c = Some (Returned c')
        ∧ subs c' = defaults_removed (subs c)
                    ++ map (λ l, (l_event l, HChain l (p_passed p))) ls
                    ++ [("create", HEmitCreated); ("load", HEmitLoaded)]
        ∧ ∀ e, chain_count e (subs c')
               = chain_count e (subs c) + declared_count e ls.
Proof.
  intros Hwf Ht Hp Hl.
  destruct (set_total d a c p Hwf Ht Hp) as (c' & E & _). exists c'.
  split; [done|].
  pose proof (set_subs _ _ _ _ _ E Hp) as Hs.
  unfold rewired, declared in Hs. rewrite Hl in Hs.
  split; [done|]. intros e. rewrite Hs.
  rewrite !chain_count_app, chain_count_defaults_removed, chain_count_declared.
  assert (chain_count e [("create", HEmitCreated); ("load", HEmitLoaded)] = 0) as ->.
  { unfold chain_count. cbn [List.filter fst snd is_chain].
    by rewrite !andb_false_r. }
  lia.
Qed.

(** C4, on the code.  [set({listeners: [L]})] twice on a new instance,
    [L] being a listener of ['load'] with one action: after the second
    call the closure of [L] is subscribed twice under ['load'], the one of
    the first call not having been removed, and the next ['load'] runs the
    action of [L] twice. *)
Theorem rewiring_duplicates :
  ∃ c1 c2 c3,
    set 2 (JObject listening) new_instance = Some (Returned c1)
    ∧ c1 = listening_once
    ∧ set 2 (JObject listening) c1 = Some (Returned c2)
    ∧ handlers_of "load" (subs c2)
      = [HChain load_listener VUndef; HChain load_listener VUndef; HEmitLoaded]
    ∧ chain_count "load" (subs c2) = 2
    ∧ declared_count "load" [load_listener] = 1
    ∧ emitLoad 2 c2 = Some (Returned c3)
    ∧ ran (trace c3) = [1; 1]
    ∧ ¬ rebuilds_from_supplied 2 (JObject listening) c1.
Proof.
  pose (c2 := state_of (default (Threw TypeError new_instance)
                          (set 2 (JObject listening) listening_once))).
  pose (c3 := state_of (default (Threw TypeError new_instance) (emitLoad 2 c2))).
  assert (set 2 (JObject listening) listening_once = Some (Returned c2)) as E2
    by (vm_compute; reflexivity).
  assert (chain_count "load" (subs c2) = 2) as Hc by (vm_compute; reflexivity).
  exists listening_once, c2, c3.
  split; [vm_compute; reflexivity|]. split; [reflexivity|].
  split; [exact E2|]. split; [vm_compute; reflexivity|].
  split; [exact Hc|]. split; [reflexivity|].
  split; [vm_compute; reflexivity|]. split; [vm_compute; reflexivity|].
  intros H.
  specialize (H listening 1 [load_listener] c2 eq_refl eq_refl E2 "load").
  rewrite Hc in H. discriminate H.
Qed.

(** ** The snapshot of [get()] *)

Lemma snapshot_of_lookup names c k v :
  snapshot_of names c !! k = Some v →
  v = getOne k c ∧ In k names ∧ k ≠ "__proto__".
Proof.
  unfold snapshot_of.
  assert (∀ acc : gmap string value,
            (∀ k v, acc !! k = Some v →
                    v = getOne k c ∧ In k names ∧ k ≠ "__proto__") →
            ∀ ns, (∀ n, In n ns → In n names) →
            ∀ k v, foldl (λ values n, assign n (getOne n c) values) acc ns !! k
                   = Some v →
                   v = getOne k c ∧ In k names ∧ k ≠ "__proto__") as Hgen.
  { intros acc Hacc ns. revert acc Hacc.
    induction ns as [|n ns IH]; simpl; intros acc Hacc Hns; [done|].
    apply IH; [|by auto].
    intros k' v'. unfold assign.
    destruct (String.eqb n "__proto__") eqn:E; [apply Hacc|].
    apply String.eqb_neq in E.
    destruct (decide (n = k')) as [->|Hne].
    - rewrite lookup_insert_eq. intros [= <-]. auto.
    - rewrite lookup_insert_ne by done. apply Hacc. }
  apply (Hgen ∅); [by intros ? ?; rewrite lookup_empty|done].
Qed.

(** Every name the loop visits is a name of the snapshot. *)
Lemma snapshot_of_Some names c k :
  In k names → k ≠ "__proto__" → snapshot_of names c !! k = Some (getOne k c).
Proof.
  intros Hin Hk. unfold snapshot_of.
  assert (∀ ns (acc : gmap string value),
            In k ns ∨ acc !! k = Some (getOne k c) →
            foldl (λ values n, assign n (getOne n c) values) acc ns !! k
            = Some (getOne k c)) as Hgen.
  { induction ns as [|n ns IH]; simpl; intros acc H.
    - by destruct H.
    - apply IH. unfold assign. destruct (decide (n = k)) as [->|Hne].
      + right. apply String.eqb_neq in Hk. rewrite Hk. by rewrite lookup_insert_eq.
      + destruct (String.eqb n "__proto__").
        * destruct H as [[?|?]|?]; auto. done.
        * rewrite lookup_insert_ne by done. destruct H as [[?|?]|?]; auto. done. }
  apply Hgen. by left.
Qed.

Lemma snapshot_of_None names c k : ¬ In k names → snapshot_of names c !! k = None.
Proof.
  intros Hk. destruct (snapshot_of names c !! k) as [v|] eqn:E; [|done].
  by apply snapshot_of_lookup in E as (_ & ? & _).
Qed.

Lemma snapshot_of_proto names c : snapshot_of names c !! "__proto__" = None.
Proof.
  destruct (snapshot_of names c !! "__proto__") as [v|] eqn:E; [|done].
  by apply snapshot_of_lookup in E as (_ & _ & ?).
Qed.

Lemma getOne_cases k c :
  (k ∈ allowedNames ∧ getOne k c = _get k c) ∨ ((k ∉ allowedNames) ∧ getOne k c = VUndef).
Proof.
  unfold getOne, _getIfAllowed.
  destruct (bool_decide (k ∈ allowedNames)) eqn:E.
  - left. by apply bool_decide_eq_true in E.
  - right. by apply bool_decide_eq_false in E.
Qed.

(** The own properties the loop of [get()] visits: the emitter's two and
    every own field. *)
Lemma own_names_In f c :
  In f (own_names c) ↔ In f emitter_fields ∨ is_Some (fields c !! f).
Proof.
  unfold own_names. rewrite in_app_iff, filter_In, in_map_iff. split.
  - intros [H|[(x & <- & Hx) _]]; [by left|]. right.
    destruct x as [k v]. apply list_elem_of_In, elem_of_map_to_list in Hx. by exists v.
  - intros [H|[v Hv]]; [by left|].
    destruct (bool_decide (f ∈ emitter_fields)) eqn:E.
    + left. by apply bool_decide_eq_true, list_elem_of_In in E.
    + right. split; [|done]. exists (f, v). split; [done|].
      by apply list_elem_of_In, elem_of_map_to_list.
Qed.

Lemma method_ok_wf m c : wf c → In m class_methods → method_ok m c = true.
Proof.
  intros [_ Hi] Hin. unfold method_ok. by rewrite (intact_method m c).
Qed.

Lemma getOne_ok_wf n c : wf c → getOne_ok n c = true.
Proof.
  intros Hwf. unfold getOne_ok.
  rewrite !method_ok_wf by (done || (simpl; tauto)). apply orb_true_r.
Qed.

Lemma snapshot_wf names c : wf c → snapshot names c = Snapshot (snapshot_of names c).
Proof.
  intros Hwf. unfold snapshot.
  assert (forallb (λ n, getOne_ok n c) names = true) as ->; [|done].
  apply forallb_forall. intros n _. by apply getOne_ok_wf.
Qed.

Lemma get_all_wf c : wf c → get GNothing c = Snapshot (get_all c).
Proof. intros Hwf. by apply snapshot_wf. Qed.

(** A constructed component has the own property [_key]; the loop of
    [get()] assigns [values['key']]. *)
Lemma get_all_surfaces_key :
  ∃ c k', constructor 2 JUndef 0 = Some (Returned c, k')
          ∧ get GNothing c = Snapshot (get_all c)
          ∧ get_all c !! "key" = Some VUndef
          ∧ ¬ surfaces_only_allowed c.
Proof.
  pose (c := state_of (default (Threw TypeError new_instance, 0%Z)
                         (constructor 2 JUndef 0)).1).
  assert (get_all c !! "key" = Some VUndef) as Hk by (vm_compute; reflexivity).
  exists c, 1%Z. split; [vm_compute; reflexivity|].
  split; [vm_compute; reflexivity|]. split; [exact Hk|].
  intros H. specialize (H "key").
  assert ("key" ∈ allowedNames) as Hin by (apply H; rewrite Hk; by eexists).
  apply (bool_decide_pack _) in Hin. vm_compute in Hin. done.
Qed.

(** C6, amended.  On a component whose getters are those of the class,
    [get()] returns a snapshot whose names are exactly the names of the
    own properties of the instance, the emitter's [_events] and
    [_eventsCount] and every own field, with their first underscore
    dropped ([__proto__], which is no key of an object, apart); a name on
    the allow-list holds what [_get] reads, and every other name is
    present and holds [undefined]. *)
Theorem get_all_allow_list (c : comp) :
  wf c →
  ∃ values,
    get GNothing c = Snapshot values
    ∧ (∀ f, In f emitter_fields ∨ is_Some (fields c !! f) →
            In f (own_names c)
            ∧ (replace_underscore f ≠ "__proto__" →
               values !! replace_underscore f
               = Some (getOne (replace_underscore f) c)))
    ∧ (∀ k v, values !! k = Some v →
              (∃ f, In f (own_names c) ∧ k = replace_underscore f)
              ∧ ((k ∈ allowedNames ∧ v = _get k c)
                 ∨ ((k ∉ allowedNames) ∧ v = VUndef))).
Proof.
  intros Hwf. exists (get_all c). split; [by apply get_all_wf|]. split.
  - intros f Hf. apply own_names_In in Hf. split; [done|]. intros Hp.
    apply snapshot_of_Some; [|done]. apply in_map_iff. by exists f.
  - intros k v H. apply snapshot_of_lookup in H as (-> & Hin & _). split.
    + apply in_map_iff in Hin as (f & <- & Hf). by exists f.
    + destruct (getOne_cases k c) as [[? ->]|[? ->]]; auto.
Qed.

Lemma get_all_allow_list_witness :
  ∃ values,
    get GNothing keyed = Snapshot values
    ∧ (∀ f, In f emitter_fields ∨ is_Some (fields keyed !! f) →
            In f (own_names keyed)
            ∧ (replace_underscore f ≠ "__proto__" →
               values !! replace_underscore f
               = Some (getOne (replace_underscore f) keyed)))
    ∧ (∀ k v, values !! k = Some v →
              (∃ f, In f (own_names keyed) ∧ k = replace_underscore f)
              ∧ ((k ∈ allowedNames ∧ v = _get k keyed)
                 ∨ ((k ∉ allowedNames) ∧ v = VUndef))).
Proof.
  apply (get_all_allow_list keyed). apply wf_check_wf. vm_compute. reflexivity.
Defined.

(** ** The argument check of [set] *)



Lemma getOne_fields c c' n : fields c' = fields c → getOne n c' = getOne n c.
Proof.
  intros Hf. unfold getOne, _getIfAllowed.
  destruct (bool_decide (n ∈ allowedNames)) eqn:E; [|done].
  apply bool_decide_eq_true in E. unfold allowedNames in E.
  assert (field (backing n) c' = field (backing n) c) as Hfield.
  { unfold field. rewrite Hf. destruct (fields c !! backing n); [done|].
    apply list_elem_of_In in E. simpl in E.
    destruct E as [<-|[<-|[<-|[<-|[]]]]]; reflexivity. }
  unfold _get. by rewrite Hfield.
Qed.












(** ** Schema accumulation *)






(** ** Construction *)

Lemma writes_refl K c : writes K c c.
Proof. exists (heap c). rewrite with_heap_same. apply keeps_refl. Qed.

Lemma keeps_writes K c c' : keeps K c c' → writes K c c'.
Proof. apply keeps_any_heap. Qed.

Lemma writes_trans K c1 c2 c3 : writes K c1 c2 → writes K c2 c3 → writes K c1 c3.
Proof.
  intros [h1 H1] [h2 H2]. exists h2.
  eapply keeps_trans; [|exact H2]. by apply (keeps_with_heap K h2) in H1.
Qed.

Lemma writes_mono K K' c c' :
  (∀ k, In k K → In k K') → writes K c c' → writes K' c c'.
Proof. intros Hsub [h H]. exists h. by eapply keeps_mono. Qed.

Lemma writes_wf K c c' :
  writes K c c' → (∀ k, In k K → ¬ In k guarded_keys) → wf c → wf c'.
Proof.
  intros [h H] HK Hwf. apply (keeps_wf _ _ _ H HK). by apply wf_with_heap.
Qed.

Lemma writes_own K c c' : writes K c c' → own_arrows c' = own_arrows c.
Proof. intros [h H]. by rewrite (keeps_own _ _ _ H). Qed.

Lemma writes_fields K c c' k :
  writes K c c' → ¬ In k K → fields c' !! k = fields c !! k.
Proof. intros [h H] Hk. by rewrite (keeps_fields _ _ _ H). Qed.

Lemma grows_writes K c c' : grows c c' → writes K c c'.
Proof. intros G. by apply keeps_writes, grows_keeps. Qed.

Lemma set_writes d a c r : set d a c = Some r → writes written_by_set c (state_of r).
Proof. apply set_keeps. Qed.

Lemma wf_new_instance : wf new_instance.
Proof. apply wf_check_wf. vm_compute. reflexivity. Qed.

Lemma name_first_keeps d a r :
  name_first d a = Some r → keeps ["_name"] new_instance (state_of r).
Proof.
  unfold name_first. intros H.
  destruct (truthy a); [|injection H as <-; apply keeps_refl].
  destruct (mapping_of a) as [[p la]|]; [|injection H as <-; apply keeps_refl].
  by apply _setName_keeps in H.
Qed.

Lemma name_first_writes d a r :
  name_first d a = Some r → writes written_by_set new_instance (state_of r).
Proof.
  intros H. apply name_first_keeps in H. apply keeps_writes.
  eapply keeps_mono; [|exact H]. in_written.
Qed.

Lemma name_first_total d a :
  ∃ c1, name_first (S (S d)) a = Some (Returned c1) ∧ wf c1.
Proof.
  unfold name_first. destruct (truthy a); [|exists new_instance; split; [done|]].
  - destruct (mapping_of a) as [[p la]|].
    + apply _setName_total, wf_new_instance.
    + exists new_instance. split; [done|apply wf_new_instance].
  - apply wf_new_instance.
Qed.

Lemma _create_writes d c r :
  _create d c = Some r → writes written_by_set c (state_of r).
Proof.
  unfold _create. intros H.
  apply send_Some in H as [H| ->]; [|apply writes_refl].
  apply send_Some in H as [H| ->]; [|apply writes_refl].
  by apply set_writes in H.
Qed.

Lemma _create_set d c : wf c → _create d c = set d (JObject base_props) c.
Proof. intros Hwf. unfold _create. by rewrite !send_wf by (done || (simpl; tauto)). Qed.

(** The constructor's statements before the key write the four backing
    fields only. *)
Lemma construct_body_writes d a r :
  construct_body d a = Some r → writes written_by_set new_instance (state_of r).
Proof.
  unfold construct_body. intros H.
  apply andthen_Some in H as [(c1 & H1 & H)|(e & c1 & H1 & ->)];
    apply name_first_writes in H1; [|done].
  apply andthen_Some in H as [(c2 & H2 & H)|(e & c2 & H2 & ->)];
    apply _create_writes in H2; [|by eapply writes_trans].
  apply andthen_Some in H as [(c3 & H3 & H)|(e & c3 & H3 & ->)];
    apply set_writes in H3;
    [|eapply writes_trans; [eapply writes_trans|]; eassumption].
  apply _emitChange_grows, (grows_writes written_by_set) in H.
  eapply writes_trans; [eapply writes_trans; [eapply writes_trans|]|]; eassumption.
Qed.

Lemma construct_body_wf d a r : construct_body d a = Some r → wf (state_of r).
Proof.
  intros H. apply construct_body_writes in H.
  apply (writes_wf _ _ _ H); [apply written_not_guarded|apply wf_new_instance].
Qed.


(** What the constructor does when [set(props)] does not throw. *)
Lemma constructor_returns d a p k :
  typeof_object (effective a) = true → props_of (effective a) = Some p →
  ∃ c1 c2 c3 c4,
    name_first (S (S d)) a = Some (Returned c1)
    ∧ set (S (S d)) (JObject base_props) c1 = Some (Returned c2)
    ∧ set (S (S d)) (effective a) c2 = Some (Returned c3)
    ∧ _emitChange (S (S d)) "create" VUndef c3 = Some (Returned c4)
    ∧ construct_body (S (S d)) a = Some (Returned c4)
    ∧ constructor (S (S d)) a k
      = Some (Returned (with_fields (<["_key" := VNum k]> (fields c4)) c4),
              (getNextKey k).2)
    ∧ wf c1 ∧ wf c2 ∧ wf c3 ∧ wf c4.
Proof.
  intros Ht Hp.
  destruct (name_first_total d a) as (c1 & E1 & Hwf1).
  destruct (set_total d (JObject base_props) c1 base_props Hwf1) as (c2 & E2 & Hwf2);
    [done..|].
  destruct (set_total d (effective a) c2 p Hwf2 Ht Hp) as (c3 & E3 & Hwf3).
  destruct (_emitChange_total d "create" VUndef c3 (wf_can_emit _ _ Hwf3))
    as [c4 E4].
  { by intros [? _]. }
  assert (wf c4) as Hwf4.
  { apply _emitChange_grows in E4. by eapply wf_grows. }
  assert (construct_body (S (S d)) a = Some (Returned c4)) as Eb.
  { unfold construct_body. rewrite E1. cbn [andthen].
    rewrite _create_set, E2 by done. cbn [andthen].
    rewrite E3. cbn [andthen]. exact E4. }
  exists c1, c2, c3, c4.
  do 5 (split; [done|]). split; [|done].
  unfold constructor. by rewrite Eb.
Qed.



(** ** Cloning *)

(** C10.  [c.clone()] draws no key: the counter of the module stays where
    it was, the source is untouched, and the copy, a new component alive,
    holds the key of its source, with the fields of the source and no
    subscription. *)
Theorem clone_keeps_key (i : nat) (P : process) (c : comp) :
  live P !! i = Some c →
  ∃ P', clone_at i P = Some P'
        ∧ nextKey P' = nextKey P
        ∧ live P' !! i = Some c
        ∧ live P' !! length (live P) = Some (clone c)
        ∧ getKey (clone c) = getKey c
        ∧ fields (clone c) = fields c
        ∧ subs (clone c) = [].
Proof.
  intros Hi. unfold clone_at. rewrite Hi. simpl.
  eexists. split; [reflexivity|]. simpl.
  split; [done|]. split.
  { rewrite lookup_app_l; [done|]. by eapply lookup_lt_Some. }
  split; [|done].
  rewrite lookup_app_r by done. by rewrite Nat.sub_diag.
Qed.

Lemma clone_keeps_key_witness :
  ∃ P', clone_at 0 (Process 1 [keyed]) = Some P'
        ∧ nextKey P' = nextKey (Process 1 [keyed])
        ∧ live P' !! 0 = Some keyed
        ∧ live P' !! length (live (Process 1 [keyed])) = Some (clone keyed)
        ∧ getKey (clone keyed) = getKey keyed
        ∧ fields (clone keyed) = fields keyed
        ∧ subs (clone keyed) = [].
Proof.
  apply (clone_keeps_key 0 (Process 1 [keyed]) keyed). reflexivity.
Defined.

(** ** Identity keys *)

Lemma getKey_fields c c' : fields c' !! "_key" = fields c !! "_key" → getKey c' = getKey c.
Proof. intros H. unfold getKey, field. by rewrite H. Qed.

Lemma resume_frame d i c c' :
  resume d i c = Some c' →
  fields c' = fields c ∧ heap c' = heap c ∧ subs c' = subs c
  ∧ own_arrows c' = own_arrows c.
Proof.
  unfold resume. destruct (pool c !! i) as [t|]; [|done].
  destruct (t_pending t).
  - intros H. apply chain_go_grows in H; [|intros *; apply emit_grows].
    by destruct H as [-> -> -> _ _ ->].
  - by intros [= <-].
Qed.

Lemma do_call_key d f c r :
  do_call d f c = Some r →
  getKey (state_of r) = getKey c ∧ own_arrows (state_of r) = own_arrows c.
Proof.
  destruct f as [a| |j]; simpl.
  - intros H. apply set_writes in H. split; [|by eapply writes_own].
    apply getKey_fields. apply (writes_fields _ _ _ _ H). ordinary.
  - intros H. apply _emitChange_grows in H. split; [|by apply grows_own].
    apply getKey_fields. by rewrite (grows_fields _ _ H).
  - intros H. apply fmap_Some in H as (c' & H & ->). simpl.
    apply resume_frame in H as (Hf & _ & _ & Ho). split; [|done].
    apply getKey_fields. by rewrite Hf.
Qed.

Lemma construct_body_key d a r :
  construct_body d a = Some r →
  getKey (state_of r) = VUndef ∧ own_arrows (state_of r) = true.
Proof.
  intros H. apply construct_body_writes in H. split.
  - rewrite (getKey_fields new_instance); [reflexivity|].
    apply (writes_fields _ _ _ _ H). ordinary.
  - by rewrite (writes_own _ _ _ H).
Qed.

Lemma constructor_key d a k c k' :
  constructor d a k = Some (Returned c, k') →
  getKey c = VNum k ∧ k' = (getNextKey k).2 ∧ own_arrows c = true ∧ wf c.
Proof.
  unfold constructor. intros H. apply bind_Some in H as (r & Hb & H).
  destruct r as [c4|e c4]; [|done]. simpl in H. injection H as <- <-.
  split; [|split; [done|split]].
  - unfold getKey, field. simpl. by rewrite lookup_insert_eq.
  - by apply construct_body_key in Hb as [_ ?].
  - apply construct_body_wf in Hb. apply wf_write; [done|ordinary].
Qed.

Lemma constructor_throws d a k e c k' :
  constructor d a k = Some (Threw e c, k') → k' = k.
Proof.
  unfold constructor. intros H. apply bind_Some in H as (r & _ & H).
  destruct r as [c4|e' c4]; [done|]. by injection H as _ _ <-.
Qed.

Lemma constructed_app l1 l2 :
  constructed (l1 ++ l2) = (constructed l1 + constructed l2)%Z.
Proof. unfold constructed. rewrite List.filter_app, length_app. lia. Qed.

Lemma constructed_nonneg l : (0 ≤ constructed l)%Z.
Proof. unfold constructed. lia. Qed.

Lemma constructed_take_S i l c :
  l !! i = Some c →
  constructed (take (S i) l)
  = (constructed (take i l) + (if own_arrows c then 1 else 0))%Z.
Proof.
  intros H. rewrite (take_S_r _ _ _ H), constructed_app.
  unfold constructed at 2. simpl. by destruct (own_arrows c).
Qed.

Lemma constructed_take_le (i j : nat) l :
  (i ≤ j)%nat → (constructed (take i l) ≤ constructed (take j l))%Z.
Proof.
  intros Hij.
  rewrite <- (take_drop i (take j l)), take_take, Nat.min_l, constructed_app by done.
  pose proof (constructed_nonneg (drop i (take j l))). lia.
Qed.

Lemma constructed_take_all i l : (constructed (take i l) ≤ constructed l)%Z.
Proof.
  rewrite <- (take_drop i l) at 2. rewrite constructed_app.
  pose proof (constructed_nonneg (drop i l)). lia.
Qed.

Lemma constructed_insert l (i : nat) c c' (j : nat) :
  l !! i = Some c → own_arrows c' = own_arrows c →
  constructed (take j (<[i := c']> l)) = constructed (take j l).
Proof.
  intros Hi Ho. unfold constructed. f_equal.
  revert i j Hi. induction l as [|x l IH]; intros i j Hi; [done|].
  destruct j as [|j]; [done|]. destruct i as [|i]; simpl in *.
  - injection Hi as ->. rewrite Ho. by destruct (own_arrows c).
  - specialize (IH i j Hi). by destruct (own_arrows x); simpl; rewrite IH.
Qed.

(** The counter is the number of components the constructor has made,
    up to [2^53] where it stays; a component the constructor made holds
    the value the counter had then. *)
Lemma reachable_keys P :
  reachable P →
  nextKey P = Z.min (constructed (live P)) (2 ^ 53)
  ∧ ∀ i c, live P !! i = Some c → own_arrows c = true →
           getKey c = VNum (Z.min (constructed (take i (live P))) (2 ^ 53)).
Proof.
  assert ((2 ^ 53)%Z = 9007199254740992%Z) as Hpow by reflexivity.
  induction 1 as [|d a P P' _ [IHn IHk] Hnew|i P P' _ [IHn IHk] Hclone
                 |d i f P P' _ [IHn IHk] Hcall].
  - split; [done|]. intros i c. simpl. by rewrite lookup_nil.
  - unfold new_Component in Hnew.
    apply bind_Some in Hnew as ([r k'] & Hc & Hnew). simpl in Hnew.
    destruct r as [c|e c]; injection Hnew as <-; simpl.
    + apply constructor_key in Hc as (Hk & -> & Hown & _). split.
      * rewrite constructed_app. unfold constructed at 2. simpl. rewrite Hown. simpl.
        unfold getNextKey. simpl. rewrite IHn.
        pose proof (constructed_nonneg (live P)).
        destruct (Z.ltb_spec (Z.min (constructed (live P)) (2 ^ 53)) (2 ^ 53)); lia.
      * intros i c'. destruct (decide (i < length (live P))%nat) as [Hlt|Hge].
        -- rewrite lookup_app_l by done. rewrite take_app_le by lia. apply IHk.
        -- rewrite lookup_app_r by lia.
           destruct (i - length (live P)) as [|n] eqn:E; [|by destruct n].
           intros [= <-] _. rewrite Hk, IHn. do 2 f_equal.
           assert (i = length (live P)) as -> by lia.
           by rewrite take_app_length.
    + apply constructor_throws in Hc as ->. by split.
  - unfold clone_at in Hclone.
    apply bind_Some in Hclone as (c & Hi & [= <-]). simpl. split.
    + rewrite constructed_app. unfold constructed at 2. simpl. rewrite IHn. lia.
    + intros j c'. destruct (decide (j < length (live P))%nat) as [Hlt|Hge].
      * rewrite lookup_app_l by done. rewrite take_app_le by lia. apply IHk.
      * rewrite lookup_app_r by lia.
        destruct (j - length (live P)) as [|n] eqn:E; [|by destruct n].
        by intros [= <-].
  - unfold call_at in Hcall.
    apply bind_Some in Hcall as (c & Hi & Hcall).
    apply bind_Some in Hcall as (r & Hf & [= <-]). simpl.
    apply do_call_key in Hf as [Hkey Hown]. split.
    + rewrite <- (firstn_all (<[i:=state_of r]> (live P))), length_insert.
      rewrite (constructed_insert _ _ c) by done. by rewrite firstn_all.
    + intros j cj. rewrite (constructed_insert _ _ c) by done.
      destruct (decide (j = i)) as [->|Hne].
      * rewrite list_lookup_insert_eq by (by eapply lookup_lt_Some).
        intros [= <-] Ho. rewrite Hkey. apply IHk; [done|]. by rewrite <- Hown.
      * rewrite list_lookup_insert_ne by done. apply IHk.
Qed.

Lemma reachable_distinct P (i j : nat) ci cj :
  reachable P → (constructed (live P) ≤ 2 ^ 53 + 1)%Z →
  live P !! i = Some ci → live P !! j = Some cj → (i < j)%nat →
  own_arrows ci = true → own_arrows cj = true →
  getKey ci ≠ getKey cj.
Proof.
  intros HP Hb Hi Hj Hlt Hoi Hoj.
  destruct (reachable_keys P HP) as [_ Hk].
  rewrite (Hk _ _ Hi Hoi), (Hk _ _ Hj Hoj).
  pose proof (constructed_take_S i (live P) ci Hi) as Hsi. rewrite Hoi in Hsi.
  pose proof (constructed_take_S j (live P) cj Hj) as Hsj. rewrite Hoj in Hsj.
  pose proof (constructed_take_le (S i) j (live P) ltac:(lia)).
  pose proof (constructed_take_all (S j) (live P)).
  pose proof (constructed_nonneg (take i (live P))).
  intros [= Heq]. lia.
Qed.

(** A component and its clone are two components alive with one key. *)
Lemma clone_shares_key :
  ∃ P1 P2, new_Component 2 JUndef initial = Some P1
           ∧ clone_at 0 P1 = Some P2
           ∧ ¬ keys_unique P2.
Proof.
  pose (P1 := default initial (new_Component 2 JUndef initial)).
  pose (P2 := default initial (clone_at 0 P1)).
  exists P1, P2. split; [vm_compute; reflexivity|]. split; [vm_compute; reflexivity|].
  intros H.
  apply (H 0 1 (default new_instance (live P2 !! 0)) (default new_instance (live P2 !! 1)));
    [vm_compute; reflexivity | vm_compute; reflexivity | lia | vm_compute; reflexivity].
Qed.

(** C5, amended.  The constructor writes [_key] in its last statement:
    the component has no key while its properties settle and [create] is
    emitted, and holds the value of the counter afterwards, the counter
    moving on by one below [2^53].  No call of [set], [emitLoad] or the
    scheduler changes the key, whether the call returns or throws.  In a
    process that constructs, clones and calls, any two components made by
    the constructor have distinct keys as long as at most [2^53 + 1] have
    been made; a copy made by [clone] is not made by the constructor and
    holds the key of its source. *)
Theorem identity_key :
  (∀ (d : nat) (a : jsarg) (p : props) (k : Z),
     typeof_object (effective a) = true → props_of (effective a) = Some p →
     ∃ c4 c,
       construct_body (S (S d)) a = Some (Returned c4)
       ∧ getKey c4 = VUndef
       ∧ In (Emitted "create" [VUndef]) (trace c4)
       ∧ constructor (S (S d)) a k = Some (Returned c, (getNextKey k).2)
       ∧ getKey c = VNum k
       ∧ trace c = trace c4
       ∧ made_by_constructor c)
  ∧ (∀ (d : nat) (f : call) (c : comp) (r : result),
       do_call d f c = Some r →
       getKey (state_of r) = getKey c
       ∧ (made_by_constructor (state_of r) ↔ made_by_constructor c))
  ∧ (∀ (P : process) (i j : nat) (ci cj : comp),
       reachable P → (constructed (live P) ≤ 2 ^ 53 + 1)%Z →
       live P !! i = Some ci → live P !! j = Some cj → i ≠ j →
       made_by_constructor ci → made_by_constructor cj →
       getKey ci ≠ getKey cj)
  ∧ (∀ c : comp, ¬ made_by_constructor (clone c) ∧ getKey (clone c) = getKey c).
Proof.
  split; [|split; [|split]].
  - intros d a p k Ht Hp.
    destruct (constructor_returns d a p k Ht Hp)
      as (c1 & c2 & c3 & c4 & H1 & H2 & H3 & H4 & Hb & Hc & _).
    eexists c4, _. split; [done|].
    destruct (construct_body_key _ _ _ Hb) as [Hk Ho].
    split; [done|].
    split.
    { apply _emitChange_trace in H4 as (es & -> & _).
      apply in_or_app. right. by left. }
    split; [exact Hc|]. split; [|split; [done|exact Ho]].
    unfold getKey, field. simpl. by rewrite lookup_insert_eq.
  - intros d f c r H. apply do_call_key in H as [Hk Ho].
    split; [done|]. unfold made_by_constructor. by rewrite Ho.
  - intros P i j ci cj HP Hb Hi Hj Hne Hoi Hoj.
    destruct (decide (i < j)%nat) as [Hlt|Hge].
    + by apply (reachable_distinct P i j ci cj).
    + intros Heq. symmetry in Heq. revert Heq.
      apply (reachable_distinct P j i cj ci); try done. lia.
  - intros c. split; [|done]. unfold made_by_constructor. simpl. discriminate.
Qed.

Lemma identity_key_witness :
  (∃ c4 c,
     construct_body 2 (JObject text_field_props) = Some (Returned c4)
     ∧ getKey c4 = VUndef
     ∧ In (Emitted "create" [VUndef]) (trace c4)
     ∧ constructor 2 (JObject text_field_props) 5
       = Some (Returned c, (getNextKey 5).2)
     ∧ getKey c = VNum 5
     ∧ trace c = trace c4
     ∧ made_by_constructor c)
  ∧ (∃ r, do_call 2 (CallSet null_listeners) wired = Some r
          ∧ getKey (state_of r) = getKey wired
          ∧ (made_by_constructor (state_of r) ↔ made_by_constructor wired))
  ∧ (∃ P1 P2 P3 c0 c2,
       new_Component 2 JUndef initial = Some P1
       ∧ clone_at 0 P1 = Some P2
       ∧ new_Component 2 (JObject text_field_props) P2 = Some P3
       ∧ live P3 !! 0 = Some c0 ∧ live P3 !! 2 = Some c2
       ∧ getKey c0 ≠ getKey c2).
Proof.
  split; [|split].
  - apply (proj1 identity_key 0 (JObject text_field_props) text_field_props 5%Z);
      reflexivity.
  - pose (r := default (Threw TypeError wired)
                 (do_call 2 (CallSet null_listeners) wired)).
    assert (do_call 2 (CallSet null_listeners) wired = Some r) as E
      by (vm_compute; reflexivity).
    exists r. split; [exact E|].
    exact (proj1 (proj2 identity_key) 2 _ wired r E).
  - pose (P1 := default initial (new_Component 2 JUndef initial)).
    pose (P2 := default initial (clone_at 0 P1)).
    pose (P3 := default initial (new_Component 2 (JObject text_field_props) P2)).
    pose (c0 := default new_instance (live P3 !! 0)).
    pose (c2 := default new_instance (live P3 !! 2)).
    assert (new_Component 2 JUndef initial = Some P1) as E1
      by (vm_compute; reflexivity).
    assert (clone_at 0 P1 = Some P2) as E2 by (vm_compute; reflexivity).
    assert (new_Component 2 (JObject text_field_props) P2 = Some P3) as E3
      by (vm_compute; reflexivity).
    assert (live P3 !! 0 = Some c0) as H0 by (vm_compute; reflexivity).
    assert (live P3 !! 2 = Some c2) as H2 by (vm_compute; reflexivity).
    exists P1, P2, P3, c0, c2. do 5 (split; [assumption|]).
    apply (proj1 (proj2 (proj2 identity_key)) P3 0 2 c0 c2).
    + exact (reach_new _ _ _ _
               (reach_clone _ _ _ (reach_new _ _ _ _ reach_initial E1) E2) E3).
    + vm_compute. discriminate.
    + exact H0.
    + exact H2.
    + lia.
    + vm_compute. reflexivity.
    + vm_compute. reflexivity.
Defined.

(** ** The default milestone *)











(** [set({listeners: null})] throws at [forEach] with both default
    emitters removed: the next ['load'] has no [loaded]. *)
Lemma throwing_set_unwires :
  ∃ c1 c2,
    set 2 null_listeners wired = Some (Threw TypeError c1)
    ∧ subs c1 = []
    ∧ emitLoad 2 c1 = Some (Returned c2)
    ∧ emitted (trace c2) = ["load"; "$change"].
Proof.
  pose (c1 := state_of (default (Threw TypeError new_instance)
                          (set 2 null_listeners wired))).
  exists c1, (state_of (default (Threw TypeError new_instance) (emitLoad 2 c1))).
  evaluated.
Qed.



(** ** Milestones and listener chains *)

(** A rejection ends the chain: the closure is left through its [await],
    nothing is run, emitted or written. *)
Lemma resume_rejected d i c t err :
  pool c !! i = Some t → t_pending t = Rejected err →
  resume d i c = Some (with_pool (delete i (pool c)) c).
Proof. unfold resume. by intros -> ->. Qed.

(** A resolution with actions left starts the next action and nothing
    else. *)
Lemma resume_resolved_next d i c t v a rest :
  pool c !! i = Some t → t_pending t = Resolved v → t_rest t = a :: rest →
  resume d i c
  = Some (with_pool
            (delete i (pool c)
             ++ [Task (t_listener t) (t_ifData t) rest
                   (act_run a (l_event (t_listener t)) (t_ifData t) v)])
            (log (Ran (act_id a) (l_event (t_listener t)) (t_ifData t) v)
               (with_pool (delete i (pool c)) c))).
Proof. unfold resume. by intros -> -> ->. Qed.

Lemma run_handlers_created d hs c c' :
  own_arrows c = true →
  In HEmitCreated hs → run_handlers (emit (S d)) hs c = Some (Returned c') →
  ∃ es, trace c' = trace c ++ es ∧ In (Emitted "created" [VUndef]) es.
Proof.
  revert c. induction hs as [|h hs IH]; intros c Hown Hin H; [done|].
  cbn [run_handlers] in H. apply andthen_Returned in H as (c1 & H1 & H2).
  destruct Hin as [->|Hin].
  - cbn [run_handler] in H1. unfold arrow_call in H1. rewrite Hown in H1.
    fold (_emitChange (S d) "created" VUndef c) in H1.
    apply _emitChange_trace in H1 as (es1 & Ht1 & _).
    apply run_handlers_grows in H2 as [_ _ _ _ [es2 Ht2] _];
      [|intros *; apply emit_grows].
    simpl in Ht2.
    exists ((Emitted "created" [VUndef] :: es1) ++ es2). split.
    + rewrite Ht2, Ht1. by rewrite <- app_assoc.
    + by left.
  - apply run_handler_grows in H1 as [_ _ _ _ [es1 Ht1] Ho1];
      [|intros *; apply emit_grows].
    simpl in Ht1, Ho1.
    destruct (IH c1 (eq_trans Ho1 Hown) Hin H2) as (es2 & Ht2 & Hin2).
    exists (es1 ++ es2). split.
    + rewrite Ht2, Ht1. by rewrite <- app_assoc.
    + apply in_or_app. by right.
Qed.

(** After any [set] that returned on a component the constructor made,
    listeners on ['create'] or not, [created] is emitted inside the call
    that emits ['create']: the flag [hasOnCreate] never keeps the default
    arrow from being subscribed. *)
Lemma created_in_the_firing d a c c1 :
  wf c → own_arrows c = true →
  set (S (S d)) a c = Some (Returned c1) →
  ∃ c2 es, _emitChange (S (S d)) "create" VUndef c1 = Some (Returned c2)
           ∧ trace c2 = trace c1 ++ Emitted "create" [VUndef] :: es
           ∧ In (Emitted "created" [VUndef]) es.
Proof.
  intros Hwf Hown Hset.
  destruct (set_returned_wired _ _ _ _ Hwf Hown Hset) as (Hwf1 & Hown1 & Hc & _).
  destruct (_emitChange_total d "create" VUndef c1 (wf_can_emit _ _ Hwf1))
    as [c2 E].
  { by intros [? _]. }
  exists c2. pose proof E as E0.
  apply send_Returned in E. unfold emitChange_with in E.
  apply andthen_Returned in E as (c' & E1 & E2).
  rewrite emit_handled in E1; [|apply Hwf1|by intros [? _]].
  apply run_handlers_created in E1 as (es1 & Ht1 & Hin1); [|done|].
  2:{ by apply handlers_of_In. }
  apply emit_grows in E2 as [_ _ _ _ [es2 Ht2] _]. simpl in Ht2.
  exists (es1 ++ es2). split; [done|]. split.
  - rewrite Ht2, Ht1. simpl. by rewrite <- !app_assoc.
  - apply in_or_app. by left.
Qed.

(** C2, on the code.  [new Component({name: 'x', listeners: [L1, L2]})]
    with both listeners on ['create']: when the constructor returns,
    [created] has been emitted, by the default arrow, while both chains
    are suspended on their first action; and when the scheduler resumes
    the chain of [L1], [created] is emitted again while the chain of [L2]
    is still suspended. *)
Theorem created_before_chains_resolve :
  ∃ c k' c1,
    constructor 2 (JObject two_create_listeners) 0 = Some (Returned c, k')
    ∧ handlers_of "create" (subs c)
      = [HChain first_listener VUndef; HChain second_listener VUndef; HEmitCreated]
    ∧ emitted (trace c)
      = ["name"; "$change"; "schema"; "$change"; "listeners"; "$change";
         "create"; "created"; "$change"; "$change"]
    ∧ ran (trace c) = [1; 1]
    ∧ map (λ t, length (t_rest t)) (pool c) = [0; 1]
    ∧ resume 2 0 c = Some c1
    ∧ emitted (trace c1) = emitted (trace c) ++ ["created"; "$change"]
    ∧ map (λ t, length (t_rest t)) (pool c1) = [1].
Proof.
  pose (c := state_of (default (Threw TypeError new_instance, 0%Z)
                         (constructor 2 (JObject two_create_listeners) 0)).1).
  exists c, 1%Z, (default c (resume 2 0 c)).
  evaluated.
Qed.

(** C3, on the code.  The chain [fetch; failing; keep] on ['create']: the
    second action rejects, the third is never run, the chain is gone from
    the pool and the fields and arrays are those the constructor left;
    but [created] was emitted for this firing of ['create'], by the
    default arrow, before the chain had run its second action. *)
Theorem rejected_chain_after_created :
  ∃ c k' c1 c2,
    constructor 2 (JObject one_failing_listener) 0 = Some (Returned c, k')
    ∧ emitted (trace c)
      = ["name"; "$change"; "schema"; "$change"; "listeners"; "$change";
         "create"; "created"; "$change"; "$change"]
    ∧ ran (trace c) = [1]
    ∧ resume 2 0 c = Some c1
    ∧ ran (trace c1) = [1; 3]
    ∧ map t_pending (pool c1) = [Rejected (VStr "failed")]
    ∧ resume 2 0 c1 = Some c2
    ∧ pool c2 = []
    ∧ ran (trace c2) = [1; 3]
    ∧ fields c2 = fields c ∧ heap c2 = heap c
    ∧ emitted (trace c2) = emitted (trace c).
Proof.
  pose (c := state_of (default (Threw TypeError new_instance, 0%Z)
                         (constructor 2 (JObject one_failing_listener) 0)).1).
  pose (c1 := default c (resume 2 0 c)).
  exists c, 1%Z, c1, (default c1 (resume 2 0 c1)).
  evaluated.
Qed.

(** * Further properties of the class *)

(** ** The two events of a change *)

Lemma emit_entries d e a c r :
  emit d e a c = Some r →
  ∃ es, trace (state_of r) = trace c ++ Emitted e a :: es
        ∧ (handlers_of e (subs c) = [] → es = []).
Proof.
  intros H. destruct (emit_trace d e a c r H) as [es Ht].
  exists es. split; [done|]. intros Hn.
  destruct d as [|d]; [done|]. rewrite emit_S in H.
  destruct (fields c !! "_events"); [done|]. rewrite Hn in H.
  assert (trace (state_of r) = trace c ++ [Emitted e a]) as Hr.
  { destruct (String.eqb e "error"); simpl in H; by injection H as <-. }
  rewrite Hr in Ht. apply app_inv_head in Ht. by injection Ht as <-.
Qed.

(** X1.  [_emitChange(name, value)] on a component whose methods are
    intact returns, unless the event is an ['error'] nobody listens to:
    it emits the event [name] with the value, then ['$change'] with the
    name and the value, in that order; what lies between and after the
    two entries comes from the listeners, and is nothing when there are
    none; no field, array or subscription changes. *)
Theorem emitChange_specific_then_generic (d : nat) (name : string) (v : value)
    (c : comp) :
  wf c → ¬ unhandled name c →
  ∃ c' es1 es2,
    _emitChange (S (S d)) name v c = Some (Returned c')
    ∧ trace c' = trace c ++ Emitted name [v] :: es1
                   ++ Emitted "$change" [VStr name; v] :: es2
    ∧ fields c' = fields c ∧ heap c' = heap c ∧ subs c' = subs c
    ∧ (handlers_of name (subs c) = [] → es1 = [])
    ∧ (handlers_of "$change" (subs c) = [] → es2 = []).
Proof.
  intros Hwf Hu.
  destruct (_emitChange_total d name v c (wf_can_emit name c Hwf) Hu) as [c' E].
  pose proof E as E0. apply send_Returned in E. unfold emitChange_with in E.
  apply andthen_Returned in E as (c1 & E1 & E2).
  pose proof (emit_grows _ _ _ _ _ E1) as G1.
  pose proof (emit_grows _ _ _ _ _ E2) as G2. simpl in G1, G2.
  apply emit_entries in E1 as (es1 & H1 & N1).
  apply emit_entries in E2 as (es2 & H2 & N2). simpl in H1, H2.
  exists c', es1, es2. split; [done|]. split.
  { rewrite H2, H1. by rewrite <- app_assoc. }
  split. { by rewrite (grows_fields _ _ G2), (grows_fields _ _ G1). }
  split. { by rewrite (grows_heap _ _ G2), (grows_heap _ _ G1). }
  split. { by rewrite (grows_subs _ _ G2), (grows_subs _ _ G1). }
  split; [done|]. intros Hn. apply N2. by rewrite (grows_subs _ _ G1).
Qed.

Lemma emitChange_specific_then_generic_witness :
  ∃ c' es1 es2,
    _emitChange 2 "name" (VStr "x") wired = Some (Returned c')
    ∧ trace c' = trace wired ++ Emitted "name" [VStr "x"] :: es1
                   ++ Emitted "$change" [VStr "name"; VStr "x"] :: es2
    ∧ fields c' = fields wired ∧ heap c' = heap wired ∧ subs c' = subs wired
    ∧ (handlers_of "name" (subs wired) = [] → es1 = [])
    ∧ (handlers_of "$change" (subs wired) = [] → es2 = []).
Proof.
  apply (emitChange_specific_then_generic 0 "name" (VStr "x") wired).
  - apply wf_check_wf. vm_compute. reflexivity.
  - intros [H _]. discriminate H.
Defined.

(** ** Reading *)

Lemma snapshot_of_fields names c c' :
  fields c' = fields c → snapshot_of names c' = snapshot_of names c.
Proof.
  intros H. unfold snapshot_of. generalize (∅ : gmap string value).
  induction names as [|n names IH]; intros m; simpl; [done|].
  rewrite (getOne_fields c c' n H). apply IH.
Qed.

Lemma get_fields a c c' : fields c' = fields c → get a c' = get a c.
Proof.
  intros H.
  assert (own_names c' = own_names c) as Ho by (unfold own_names; by rewrite H).
  assert (∀ n, getOne_ok n c' = getOne_ok n c) as Hok
    by (intros n; unfold getOne_ok, method_ok; by rewrite H).
  assert (∀ names, snapshot names c' = snapshot names c) as Hs.
  { intros names. unfold snapshot. rewrite (snapshot_of_fields names c c' H).
    assert (forallb (λ n, getOne_ok n c') names = forallb (λ n, getOne_ok n c) names)
      as -> ; [|done].
    induction names as [|n names IH]; simpl; [done|]. by rewrite Hok, IH. }
  destruct a as [|names|name]; cbn [get].
  - by rewrite Ho, Hs.
  - apply Hs.
  - by rewrite Ho, Hs, Hok, (getOne_fields c c' name H).
Qed.

(** X2.  [emitLoad()] on a component whose methods are intact returns:
    it emits ['load'] and then ['$change'], and leaves every field, every
    array and every subscription as it was, so that [get] answers after
    the call what it answered before. *)
Theorem emitLoad_changes_no_property (d : nat) (c : comp) :
  wf c →
  ∃ c' es,
    emitLoad (S (S d)) c = Some (Returned c')
    ∧ trace c' = trace c ++ Emitted "load" [VUndef] :: es
    ∧ In (Emitted "$change" [VStr "load"; VUndef]) es
    ∧ fields c' = fields c ∧ heap c' = heap c ∧ subs c' = subs c
    ∧ ∀ a, get a c' = get a c.
Proof.
  intros Hwf. unfold emitLoad.
  destruct (_emitChange_total d "load" VUndef c (wf_can_emit "load" c Hwf))
    as [c' E]; [by intros [? _]|].
  pose proof (_emitChange_grows _ _ _ _ _ E) as G. simpl in G.
  destruct (_emitChange_trace _ _ _ _ _ E) as (es & Ht & Hin).
  exists c', es. split; [done|]. split; [done|]. split; [done|].
  split; [apply (grows_fields _ _ G)|]. split; [apply (grows_heap _ _ G)|].
  split; [apply (grows_subs _ _ G)|].
  intros a. apply get_fields, (grows_fields _ _ G).
Qed.

Lemma emitLoad_changes_no_property_witness :
  ∃ c' es,
    emitLoad 2 keyed = Some (Returned c')
    ∧ trace c' = trace keyed ++ Emitted "load" [VUndef] :: es
    ∧ In (Emitted "$change" [VStr "load"; VUndef]) es
    ∧ fields c' = fields keyed ∧ heap c' = heap keyed ∧ subs c' = subs keyed
    ∧ ∀ a, get a c' = get a keyed.
Proof.
  apply (emitLoad_changes_no_property 0 keyed).
  apply wf_check_wf. vm_compute. reflexivity.
Defined.

Lemma getOne_allowed k c : k ∈ allowedNames → getOne k c = _get k c.
Proof. intros Hk. by destruct (getOne_cases k c) as [[_ H]|[Hn _]]. Qed.




(** X4.  [get(names)] with an array of names returns an object with one
    key for each name of the array, [__proto__] apart, and no other key;
    the value under a key is [getOne] of it: the property for a name of
    the allow-list, [undefined] for any other. *)
Theorem get_names_snapshot (names : list string) (c : comp) :
  wf c →
  ∃ values,
    get (GNames names) c = Snapshot values
    ∧ (∀ k, In k names → k ≠ "__proto__" → values !! k = Some (getOne k c))
    ∧ (∀ k, ¬ In k names → values !! k = None)
    ∧ (∀ k v, values !! k = Some v →
              In k names
              ∧ ((k ∈ allowedNames ∧ v = _get k c)
                 ∨ ((k ∉ allowedNames) ∧ v = VUndef))).
Proof.
  intros Hwf. exists (snapshot_of names c). split; [by apply snapshot_wf|].
  split; [intros k; apply snapshot_of_Some|].
  split; [intros k; apply snapshot_of_None|].
  intros k v H. apply snapshot_of_lookup in H as (-> & Hin & _).
  split; [done|]. apply getOne_cases.
Qed.

Lemma get_names_snapshot_witness :
  ∃ values,
    get (GNames ["name"; "key"]) keyed = Snapshot values
    ∧ (∀ k, In k ["name"; "key"] → k ≠ "__proto__" →
            values !! k = Some (getOne k keyed))
    ∧ (∀ k, ¬ In k ["name"; "key"] → values !! k = None)
    ∧ (∀ k v, values !! k = Some v →
              In k ["name"; "key"]
              ∧ ((k ∈ allowedNames ∧ v = _get k keyed)
                 ∨ ((k ∉ allowedNames) ∧ v = VUndef))).
Proof.
  apply (get_names_snapshot ["name"; "key"] keyed).
  apply wf_check_wf. vm_compute. reflexivity.
Defined.

(** ** Writing, then reading *)

Lemma is_undefined_true v : is_undefined v = true → v = VUndef.
Proof. by destruct v. Qed.

Lemma _setIfUndefinedProp_precise d v name c c' :
  _setIfUndefinedProp d v name c = Some (Returned c') →
  keeps (if is_undefined v then [] else [backing name]) c c'
  ∧ (v ≠ VUndef → _get name c' = v).
Proof.
  intros H. apply send_Returned in H.
  destruct (is_undefined v) eqn:E; simpl in H.
  - injection H as <-. split; [apply keeps_refl|].
    intros Hv. by apply is_undefined_true in E.
  - split; [apply (_set_keeps _ _ _ _ _ H)|]. intros Hv. by eapply _set_get.
Qed.

Lemma keeps_get K c c' name :
  keeps K c c' → ¬ In (backing name) K → backing name ≠ "_eventsCount" →
  _get name c' = _get name c.
Proof. intros H Hk Hc. unfold _get. by rewrite (keeps_field K c c'). Qed.

Lemma _setListeners_precise d p c c' :
  _setListeners d p (listeners_of p) c = Some (Returned c') →
  keeps (match p_listeners p with Some _ => ["_listeners"] | None => [] end) c c'
  ∧ (∀ r ls, p_listeners p = Some (r, ls) → _get "listeners" c' = VObj r).
Proof.
  intros H. split.
  { apply _setListeners_writes in H. simpl in H. unfold listeners_of in H.
    by destruct (p_listeners p) as [[r ls]|]. }
  intros r ls Hp. unfold _setListeners in H. apply send_Returned in H.
  cbn zeta in H. cbn [negb] in H.
  apply andthen_Returned in H as (c1 & _ & H).
  apply andthen_Returned in H as (c2 & _ & H).
  apply andthen_Returned in H as (c3 & H3 & H).
  apply andthen_Returned in H as (c4 & H4 & H).
  unfold listeners_of in H3. rewrite Hp in H3.
  apply andthen_Returned in H3 as (c0 & E & H3).
  apply _setIfUndefinedProp_precise in E as [_ E].
  apply (subscribe_all_keeps []) in H3. simpl in H3.
  apply with_arrow_Returned, (on_keeps []) in H4; [|done].
  apply with_arrow_Returned, (on_keeps []) in H; [|done]. simpl in H, H4.
  rewrite (keeps_get [] c4 c'), (keeps_get [] c3 c4), (keeps_get [] c0 c3);
    try done; try (by intros []).
  by apply E.
Qed.

Lemma push_schema_precise d p c c' :
  push_schema d p c = Some (Returned c') →
  ∃ h, keeps (if is_undefined (p_schema p) then [] else ["_schema"])
         (with_heap h c) c'.
Proof.
  unfold push_schema. destruct (is_undefined (p_schema p)); simpl.
  - intros [= <-]. apply keeps_any_heap, keeps_refl.
  - apply (_push_keeps _ "schema").
Qed.

(** X5.  [set(props)] with a keyed mapping, on a component whose methods
    are intact, returns; it writes the backing fields of the properties
    among [name], [listeners], [passed] and [schema] that [props] defines
    and no other field; afterwards a defined [name], [listeners] or
    [passed] is what [getOne] returns for it, and a property [props] left
    [undefined] reads as it did before the call. *)
Theorem set_then_get (d : nat) (p : props) (c : comp) :
  wf c →
  ∃ c',
    set (S (S d)) (JObject p) c = Some (Returned c')
    ∧ (∀ k, ¬ In k (touched p) → fields c' !! k = fields c !! k)
    ∧ (p_name p ≠ VUndef → getOne "name" c' = p_name p)
    ∧ (p_passed p ≠ VUndef → getOne "passed" c' = p_passed p)
    ∧ (∀ r ls, p_listeners p = Some (r, ls) → getOne "listeners" c' = VObj r)
    ∧ (p_name p = VUndef → getOne "name" c' = getOne "name" c)
    ∧ (p_passed p = VUndef → getOne "passed" c' = getOne "passed" c)
    ∧ (p_listeners p = None → getOne "listeners" c' = getOne "listeners" c)
    ∧ (p_schema p = VUndef → getOne "schema" c' = getOne "schema" c).
Proof.
  intros Hwf.
  destruct (set_total d (JObject p) c p Hwf) as (c' & E & _); [done|done|].
  exists c'. split; [done|].
  apply set_Returned in E as (p0 & la & c1 & c2 & c3 & _ & Hm & E1 & E2 & E3 & E4).
  simpl in Hm. injection Hm as <- <-.
  apply send_Returned, _setIfUndefinedProp_precise in E1 as [K1 G1].
  apply _setListeners_precise in E2 as [K2 G2].
  apply send_Returned, _setIfUndefinedProp_precise in E3 as [K3 G3].
  apply push_schema_precise in E4 as [h K4].
  assert (∀ k, ¬ In k (touched p) → fields c' !! k = fields c !! k) as Hf.
  { intros k Hk. unfold touched in Hk. rewrite !in_app_iff in Hk.
    rewrite (keeps_fields _ _ _ K4), (keeps_fields _ _ _ K3),
      (keeps_fields _ _ _ K2), (keeps_fields _ _ _ K1); tauto. }
  assert (∀ n, n ∈ allowedNames → ¬ In (backing n) (touched p) →
               getOne n c' = getOne n c) as Hsame.
  { intros n Hn Hk. rewrite !getOne_allowed by done. unfold _get, field.
    rewrite (Hf _ Hk). apply list_elem_of_In in Hn. simpl in Hn.
    by destruct Hn as [<-|[<-|[<-|[<-|[]]]]]. }
  assert (∀ k, k ≠ "_schema" →
               ¬ In k (if is_undefined (p_schema p) then [] else ["_schema"])) as N4.
  { intros k Hk. destruct (is_undefined (p_schema p)); simpl; [by intros []|].
    intros [<-|[]]. by apply Hk. }
  assert (∀ k, k ≠ "_passed" →
               ¬ In k (if is_undefined (p_passed p) then [] else [backing "passed"]))
    as N3.
  { intros k Hk. destruct (is_undefined (p_passed p)); simpl; [by intros []|].
    intros [<-|[]]. by apply Hk. }
  assert (∀ k, k ≠ "_listeners" →
               ¬ In k (match p_listeners p with
                       | Some _ => ["_listeners"] | None => [] end)) as N2.
  { intros k Hk. destruct (p_listeners p); simpl; [|by intros []].
    intros [<-|[]]. by apply Hk. }
  assert (∀ n, backing n ≠ "_schema" → backing n ≠ "_eventsCount" →
               _get n c' = _get n c3) as S4.
  { intros n H1 H2. rewrite (keeps_get _ _ _ n K4); [done|by apply N4|done]. }
  assert (∀ n, backing n ≠ "_passed" → backing n ≠ "_eventsCount" →
               _get n c3 = _get n c2) as S3.
  { intros n H1 H2. rewrite (keeps_get _ _ _ n K3); [done|by apply N3|done]. }
  assert (∀ n, backing n ≠ "_listeners" → backing n ≠ "_eventsCount" →
               _get n c2 = _get n c1) as S2.
  { intros n H1 H2. rewrite (keeps_get _ _ _ n K2); [done|by apply N2|done]. }
  split; [done|]. split; [|split; [|split]].
  - intros Hv. rewrite getOne_allowed by repeat constructor.
    rewrite S4, S3, S2 by ordinary. by apply G1.
  - intros Hv. rewrite getOne_allowed by repeat constructor.
    rewrite S4 by ordinary. by apply G3.
  - intros r ls Hl. rewrite getOne_allowed by repeat constructor.
    rewrite S4, S3 by ordinary. by eapply G2.
  - split; [|split; [|split]].
    + intros Hv. apply Hsame; [repeat constructor|]. unfold touched.
      rewrite Hv. simpl. rewrite !in_app_iff. intros [H|[H|H]].
      * destruct (p_listeners p); simpl in H; intuition discriminate.
      * destruct (is_undefined (p_passed p)); simpl in H; intuition discriminate.
      * destruct (is_undefined (p_schema p)); simpl in H; intuition discriminate.
    + intros Hv. apply Hsame; [repeat constructor|]. unfold touched.
      rewrite Hv. simpl. rewrite !in_app_iff. intros [H|[H|H]].
      * destruct (is_undefined (p_name p)); simpl in H; intuition discriminate.
      * destruct (p_listeners p); simpl in H; intuition discriminate.
      * destruct (is_undefined (p_schema p)); simpl in H; intuition discriminate.
    + intros Hv. apply Hsame; [repeat constructor|]. unfold touched.
      rewrite Hv. simpl. rewrite !in_app_iff. intros [H|[H|H]].
      * destruct (is_undefined (p_name p)); simpl in H; intuition discriminate.
      * destruct (is_undefined (p_passed p)); simpl in H; intuition discriminate.
      * destruct (is_undefined (p_schema p)); simpl in H; intuition discriminate.
    + intros Hv. apply Hsame; [repeat constructor|]. unfold touched.
      rewrite Hv. simpl. rewrite app_nil_r, !in_app_iff. intros [H|[H|H]].
      * destruct (is_undefined (p_name p)); simpl in H; intuition discriminate.
      * destruct (p_listeners p); simpl in H; intuition discriminate.
      * destruct (is_undefined (p_passed p)); simpl in H; intuition discriminate.
Qed.

Lemma set_then_get_witness :
  ∃ c',
    set 2 (JObject text_field_props) wired = Some (Returned c')
    ∧ (∀ k, ¬ In k (touched text_field_props) → fields c' !! k = fields wired !! k)
    ∧ (p_name text_field_props ≠ VUndef
       → getOne "name" c' = p_name text_field_props)
    ∧ (p_passed text_field_props ≠ VUndef
       → getOne "passed" c' = p_passed text_field_props)
    ∧ (∀ r ls, p_listeners text_field_props = Some (r, ls)
               → getOne "listeners" c' = VObj r)
    ∧ (p_name text_field_props = VUndef → getOne "name" c' = getOne "name" wired)
    ∧ (p_passed text_field_props = VUndef
       → getOne "passed" c' = getOne "passed" wired)
    ∧ (p_listeners text_field_props = None
       → getOne "listeners" c' = getOne "listeners" wired)
    ∧ (p_schema text_field_props = VUndef
       → getOne "schema" c' = getOne "schema" wired).
Proof.
  apply (set_then_get 0 text_field_props wired).
  apply wf_check_wf. vm_compute. reflexivity.
Defined.

(** ** A listener chain *)






(** ** The class name *)

Lemma constructor_inv d a k c k' :
  constructor d a k = Some (Returned c, k') →
  ∃ c4, construct_body d a = Some (Returned c4)
        ∧ c = with_fields (<["_key" := VNum k]> (fields c4)) c4.
Proof.
  unfold constructor. intros H. apply bind_Some in H as (r & E & H).
  destruct r as [c4|e c4]; [|done]. simpl in H. injection H as <- _.
  by exists c4.
Qed.

(** X7.  [getClassName()] returns [_className] when the component holds
    a truthy one, and the name of the constructor otherwise.  The class
    itself never writes [_className]: a component the constructor
    returned answers with the name of its constructor, and [set] does not
    change the answer. *)
Theorem getClassName_rule (ctor : string) :
  (∀ c, truthy_value (field "_className" c) = true →
        getClassName ctor c = field "_className" c)
  ∧ (∀ c, truthy_value (field "_className" c) = false →
          getClassName ctor c = VStr ctor)
  ∧ (∀ d a k c k', constructor d a k = Some (Returned c, k') →
                   getClassName ctor c = VStr ctor)
  ∧ (∀ d a c r, set d a c = Some r →
                getClassName ctor (state_of r) = getClassName ctor c).
Proof.
  split; [|split; [|split]].
  - intros c H. unfold getClassName. by rewrite H.
  - intros c H. unfold getClassName. by rewrite H.
  - intros d a k c k' H. apply constructor_inv in H as (c4 & E & ->).
    apply construct_body_writes in E. simpl in E.
    pose proof (writes_fields _ _ _ "_className" E) as Hf.
    unfold getClassName, field. simpl.
    rewrite lookup_insert_ne by discriminate. rewrite Hf; [done|].
    simpl. intuition discriminate.
  - intros d a c r H.
    pose proof (set_other_fields d a c r "_className" H) as Hf.
    unfold getClassName, field. rewrite Hf; [done|]. simpl. intuition discriminate.
Qed.

Lemma getClassName_rule_witness :
  getClassName "Component"
    (with_fields (<["_className" := VStr "app.Account"]> (fields keyed)) keyed)
  = VStr "app.Account"
  ∧ getClassName "Component" keyed = VStr "Component"
  ∧ (∃ c, constructor 2 (JObject text_field_props) 0 = Some (Returned c, 1%Z)
          ∧ getClassName "Component" c = VStr "Component").
Proof.
  split; [|split].
  - apply (proj1 (getClassName_rule "Component")). reflexivity.
  - apply (proj1 (proj2 (getClassName_rule "Component"))). reflexivity.
  - pose (c := state_of
                 (default (Returned new_instance, 0%Z)
                    (constructor 2 (JObject text_field_props) 0)).1).
    assert (constructor 2 (JObject text_field_props) 0 = Some (Returned c, 1%Z)) as E
      by (vm_compute; reflexivity).
    exists c. split; [exact E|].
    exact (proj1 (proj2 (proj2 (getClassName_rule "Component"))) _ _ _ _ _ E).
Defined.

(** * Properties of the form dialog *)

Import FormDialog.

Lemma mode_is_true m p : mode_is m p = true ↔ mode p = Some m.
Proof.
  unfold mode_is. destruct (mode p) as [m'|]; [|done].
  rewrite String.eqb_eq. split; congruence.
Qed.

Lemma mode_is_false m p : mode_is m p = false ↔ mode p ≠ Some m.
Proof.
  rewrite <- mode_is_true. by destruct (mode_is m p).
Qed.

(** X8.  Closing the dialog.  In mode ['edit'] a dismissal that does not
    come from the Cancel button (the escape key, a click outside) changes
    nothing and calls nothing, so the dialog stays as it is; in any other
    mode it closes the dialog and calls [onClose] once when one is given.
    The Cancel button closes the dialog in every mode. *)
Theorem dialog_close_rule (p : dialog_props) (st : state) :
  (mode p = Some "edit" → dismiss p st = st)
  ∧ (mode p ≠ Some "edit" →
     st_open (dismiss p st) = Some false
     ∧ st_calls (dismiss p st)
       = st_calls st ++ (if onClose p then [OnClose] else []))
  ∧ st_open (cancel p st) = Some false
  ∧ st_calls (cancel p st)
    = st_calls st ++ (if onClose p then [OnClose] else []).
Proof.
  unfold dismiss, cancel, handleClose. split; [|split].
  - intros H. apply mode_is_true in H. by rewrite H.
  - intros H. apply mode_is_false in H. rewrite H. simpl.
    destruct (onClose p); simpl; [done|]. by rewrite app_nil_r.
  - simpl. destruct (onClose p); simpl; [done|]. by rewrite app_nil_r.
Qed.

Lemma dialog_close_rule_witness :
  dismiss editing (State (Some true) []) = State (Some true) []
  ∧ st_open (dismiss viewing (State (Some true) [])) = Some false.
Proof.
  split.
  - apply (proj1 (dialog_close_rule editing (State (Some true) []))). reflexivity.
  - apply (proj1 (proj2 (dialog_close_rule viewing (State (Some true) [])))).
    discriminate.
Defined.

(** X9.  The buttons of the dialog.  Save and Cancel are shown together,
    exactly in the modes ['edit'] and ['new'], and Save is disabled when
    the form has an error on a touched field or is not dirty.  In the
    other modes, on an editable dialog that is not disabled, Edit is
    shown unless updates are forbidden, and one of Delete and Restore
    unless deletion is forbidden: Restore for an archived record, Delete
    otherwise.  No button is shown twice. *)
Theorem dialog_buttons (p : dialog_props) :
  let editing := mode_is "edit" p || mode_is "new" p in
  let usable := editable p && negb (disabled p) in
  (In Cancel (buttons p) ↔ editing = true)
  ∧ (∀ b, In (Save b) (buttons p)
          ↔ editing = true ∧ b = hasErrorForTouchedField p || negb (dirty p))
  ∧ (In Edit (buttons p)
     ↔ editing = false ∧ usable = true ∧ forbidUpdate p = false)
  ∧ (In Delete (buttons p)
     ↔ editing = false ∧ usable = true ∧ forbidDelete p = false
       ∧ archivedAt p = false)
  ∧ (In Restore (buttons p)
     ↔ editing = false ∧ usable = true ∧ forbidDelete p = false
       ∧ archivedAt p = true)
  ∧ NoDup (buttons p).
Proof.
  cbv zeta. unfold buttons.
  destruct (mode_is "edit" p || mode_is "new" p), (editable p), (disabled p),
    (forbidUpdate p), (forbidDelete p), (archivedAt p); simpl;
    (split; [|split; [|split; [|split; [|split]]]]);
    try (intros b; split; [intros H|intros [H1 H2]]);
    try (intuition (discriminate || congruence));
    repeat (constructor; [rewrite list_elem_of_In; simpl; intuition discriminate|]);
    constructor.
Qed.

(** X10.  The handlers of Save, Edit and Delete call the callback of
    their button once, when one is given, and nothing else; [handleSave]
    first prevents the default action of the event.  None of them changes
    whether the dialog is open: closing after a save or a deletion is left
    to the [open] prop. *)
Theorem dialog_callbacks (p : dialog_props) (st : state) :
  st_calls (handleSave p st)
  = st_calls st ++ PreventDefault :: (if onSave p then [OnSave] else [])
  ∧ st_calls (handleEdit p st) = st_calls st ++ (if onEdit p then [OnEdit] else [])
  ∧ st_calls (handleDelete p st)
    = st_calls st ++ (if onDelete p then [OnDelete] else [])
  ∧ st_open (handleSave p st) = st_open st
  ∧ st_open (handleEdit p st) = st_open st
  ∧ st_open (handleDelete p st) = st_open st.
Proof.
  unfold handleSave, handleEdit, handleDelete.
  destruct (onSave p), (onEdit p), (onDelete p); simpl;
    rewrite ?app_nil_r, <- ?app_assoc; done.
Qed.

(** X11.  The state follows the [open] prop.  After an update that
    changed the prop, the state holds the new value, whatever the handlers
    had set; after an update that did not change it, the state is what it
    was: a dialog opened by [handleClickOpen] stays open.  No callback is
    called. *)
Theorem dialog_open_follows_prop (prevProps p : dialog_props) (st : state) :
  (open prevProps ≠ open p → st_open (componentDidUpdate prevProps p st) = open p)
  ∧ (open prevProps = open p → componentDidUpdate prevProps p st = st)
  ∧ st_calls (componentDidUpdate prevProps p st) = st_calls st
  ∧ (open prevProps = open p →
     st_open (componentDidUpdate prevProps p (handleClickOpen st)) = Some true).
Proof.
  unfold componentDidUpdate.
  assert (same_open (open prevProps) (open p) = true ↔ open prevProps = open p) as Hs.
  { destruct (open prevProps) as [[]|], (open p) as [[]|]; simpl;
      split; congruence. }
  destruct (same_open (open prevProps) (open p)); simpl.
  - split; [intros H; by destruct H; apply Hs|]. done.
  - split; [done|]. split; [intros H; by apply Hs in H|]. split; [done|].
    intros H. by apply Hs in H.
Qed.

Lemma dialog_open_follows_prop_witness :
  st_open (componentDidUpdate unopened viewing initial_state) = Some true.
Proof.
  apply (proj1 (dialog_open_follows_prop unopened viewing initial_state)).
  discriminate.
Defined.
